(** * crewai.flow.flow: the trigger graph of a Flow class and its execution

    A shallow embedding of [src/crewai/flow/flow.py]: the decorators [start]
    and [listen], the metaclass [FlowMeta] that collects the start methods
    and the listeners of a class body, and the class [Flow] whose [run]
    walks the resulting graph.

    Python objects live in a heap addressed by locations, so that two
    references to one mutable object are one location.  Methods are Rocq
    functions on the heap that return a value or raise.  The recursion of
    [_execute_listeners] is bounded by a depth budget, as the interpreter's
    call stack bounds it. *)

From Stdlib Require Import ZArith.
From stdpp Require Import base option list strings gmap.

Set Warnings "-register-all".

(** ** Values, exceptions and the heap *)

(** An exception instance.  [except Exception] catches the instances of
    [Exception] and of its subclasses ([Exc]); [SystemExit],
    [KeyboardInterrupt] and [GeneratorExit] derive from [BaseException] only
    ([BaseExc]) and pass through such a handler.  [msg] is what [str(e)]
    gives. *)
Inductive pyexc :=
| Exc (cls : string) (msg : string)
| BaseExc (cls : string) (msg : string).

Definition is_Exception (e : pyexc) : bool :=
  match e with Exc _ _ => true | BaseExc _ _ => false end.

Definition exc_str (e : pyexc) : string :=
  match e with Exc _ msg => msg | BaseExc _ msg => msg end.

Definition ValueError (msg : string) : pyexc := Exc "ValueError" msg.
Definition AttributeError (msg : string) : pyexc := Exc "AttributeError" msg.
(** [str(KeyError(k))] is the repr of the key. *)
Definition KeyError (key : string) : pyexc := Exc "KeyError" ("'" +:+ key +:+ "'").

Definition loc := nat.

(** The values a step can receive and return, and that [initial_state] can
    hold.  [VType name init] is a class object: calling it with no argument
    either raises ([inl], as a pydantic model with a required field does) or
    builds an instance with the fields [init].  [VFunc name] is a function
    object, known by its name. *)
Inductive pyval :=
| VNone
| VInt (z : Z)
| VStr (s : string)
| VRef (l : loc)
| VFunc (name : string)
| VType (name : string) (init : pyexc + list (string * pyval)).

(** A mutable object: a dict ([obj_type = "dict"]) or a class instance. *)
Record pyobj := { obj_type : string; obj_fields : list (string * pyval) }.

Abbreviation heap := (list pyobj).

Definition alloc (h : heap) (o : pyobj) : heap * loc := (h ++ [o], length h).

Definition allocated (h : heap) (l : loc) : Prop := is_Some (h !! l).

Definition empty_dict : pyobj := {| obj_type := "dict"; obj_fields := [] |}.

(** [T()]: the call of a class object with no argument. *)
Definition call_type (name : string) (init : pyexc + list (string * pyval))
    (h : heap) : heap * (pyexc + pyval) :=
  match init with
  | inl e => (h, inl e)
  | inr fields =>
      let '(h', l) := alloc h {| obj_type := name; obj_fields := fields |} in
      (h', inr (VRef l))
  end.

(** ** Functions, decorators and class bodies *)

(** What a call of a bound method does: it reads and writes the heap (the
    flow's state among it), takes the upstream result when called as a
    listener ([Some]) and nothing when called as a start method ([None]),
    and returns a value or raises. *)
Abbreviation method := (heap → option pyval → heap * (pyexc + pyval)).

(** An argument of [listen]: a method name, or a callable, whose [__name__]
    is used; a callable may have none ([functools.partial]). *)
Inductive trigger :=
| TStr (s : string)
| TCallable (name : option string).

(** A function object with the two attributes the decorators set. *)
Record function := {
  __is_start_method__ : option bool;
  __trigger_methods__ : option (list trigger);
  body : method
}.

Definition def (m : method) : function :=
  {| __is_start_method__ := None; __trigger_methods__ := None; body := m |}.

Definition start (func : function) : function :=
  {| __is_start_method__ := Some true;
     __trigger_methods__ := __trigger_methods__ func;
     body := body func |}.

Definition listen (trigger_methods : list trigger) (func : function) : function :=
  {| __is_start_method__ := __is_start_method__ func;
     __trigger_methods__ := Some trigger_methods;
     body := body func |}.

(** The value bound to a name in a class body. *)
Inductive attr_value :=
| AFunction (f : function)
| AValue (v : pyval).

(** A dict keeps its keys in insertion order: an association list with one
    entry per key. *)
Abbreviation namespace := (list (string * attr_value)).

Fixpoint dict_get {V} (k : string) (d : list (string * V)) : option V :=
  match d with
  | [] => None
  | (k', v) :: d' => if decide (k' = k) then Some v else dict_get k d'
  end.

(** [d[k] = v]: a key already present keeps its position and takes the new
    value; a new key goes last. *)
Fixpoint dict_setitem {V} (k : string) (v : V) (d : list (string * V))
    : list (string * V) :=
  match d with
  | [] => [(k, v)]
  | (k', v') :: d' =>
      if decide (k' = k) then (k', v) :: d' else (k', v') :: dict_setitem k v d'
  end.

(** The namespace of a class body: its bindings executed in order. *)
Definition class_namespace (class_body : list (string * attr_value)) : namespace :=
  fold_left (λ d kv, dict_setitem kv.1 kv.2 d) class_body [].

(** [hasattr(attr_value, "__is_start_method__")] *)
Definition has_is_start_method (a : attr_value) : bool :=
  match a with
  | AFunction f => bool_decide (is_Some (__is_start_method__ f))
  | AValue _ => false
  end.

(** [attr_value.__trigger_methods__], when the attribute is there. *)
Definition trigger_methods_of (a : attr_value) : option (list trigger) :=
  match a with
  | AFunction f => __trigger_methods__ f
  | AValue _ => None
  end.

(** ** FlowMeta *)

(** A class made by [FlowMeta]: its own namespace, the namespaces of the
    classes after it in its method resolution order, and the two attributes
    the metaclass sets. *)
Record flow_class := {
  cls_dct : namespace;
  cls_bases : list namespace;
  _start_methods : list string;
  _listeners : gmap string (list string)
}.

Module FlowMeta.

(** [trigger.__name__ if callable(trigger) else trigger] *)
Definition trigger_name (t : trigger) : pyexc + string :=
  match t with
  | TStr s => inr s
  | TCallable (Some n) => inr n
  | TCallable None => inl (AttributeError "object has no attribute '__name__'")
  end.

(** One round of the inner loop (lines 20 to 23). *)
Definition add_listener (attr_name : string) (listeners : gmap string (list string))
    (t : trigger) : pyexc + gmap string (list string) :=
  match trigger_name t with
  | inl e => inl e
  | inr trigger_name =>
      let listeners :=
        match listeners !! trigger_name with
        | None => <[trigger_name := []]> listeners
        | Some _ => listeners
        end in
      inr (<[trigger_name := default [] (listeners !! trigger_name) ++ [attr_name]]> listeners)
  end.

Fixpoint add_listeners (attr_name : string) (listeners : gmap string (list string))
    (ts : list trigger) : pyexc + gmap string (list string) :=
  match ts with
  | [] => inr listeners
  | t :: ts' =>
      match add_listener attr_name listeners t with
      | inl e => inl e
      | inr listeners' => add_listeners attr_name listeners' ts'
      end
  end.

(** The loop over [dct.items()] (lines 15 to 23), on the pair
    [(start_methods, listeners)]. *)
Fixpoint collect (items : namespace)
    (start_methods : list string) (listeners : gmap string (list string))
    : pyexc + (list string * gmap string (list string)) :=
  match items with
  | [] => inr (start_methods, listeners)
  | (attr_name, attr_value) :: items' =>
      let start_methods :=
        if has_is_start_method attr_value
        then start_methods ++ [attr_name] else start_methods in
      match trigger_methods_of attr_value with
      | None => collect items' start_methods listeners
      | Some ts =>
          match add_listeners attr_name listeners ts with
          | inl e => inl e
          | inr listeners' => collect items' start_methods listeners'
          end
      end
  end.

(** [FlowMeta.__new__(mcs, name, bases, dct)].  The graph is read off [dct]
    alone; [bases] only becomes the class's ancestry.  The annotation of
    [state] (lines 29 to 34) bears on neither the graph nor a run and is
    left out. *)
Definition __new__ (bases : list namespace) (dct : namespace) : pyexc + flow_class :=
  match collect dct [] ∅ with
  | inl e => inl e
  | inr (start_methods, listeners) =>
      inr {| cls_dct := dct; cls_bases := bases;
             _start_methods := start_methods; _listeners := listeners |}
  end.

End FlowMeta.

(** A [class] statement under the metaclass: the body is run into a
    namespace, which [FlowMeta.__new__] receives as [dct]. *)
Definition class_statement (bases : list namespace)
    (class_body : list (string * attr_value)) : pyexc + flow_class :=
  FlowMeta.__new__ bases (class_namespace class_body).

(** ** Flow *)

(** What an observer of a run sees, in order: the calls the engine makes
    into the method table, and the lines it prints. *)
Inductive event :=
| Invoke (name : string) (arg : option pyval)
| Print (line : string).

Record machine := { m_heap : heap; m_log : list event }.

Definition emit (ev : event) (m : machine) : machine :=
  {| m_heap := m_heap m; m_log := m_log m ++ [ev] |}.

(** The outcome of a piece of the engine: it returns, it raises, or the
    depth budget ran out below it.  Each outcome carries the machine as it
    was left. *)
Inductive res (A : Type) :=
| Ret (a : A) (m : machine)
| Raise (e : pyexc) (m : machine)
| OutOfFuel (m : machine).
Arguments Ret {A} a m.
Arguments Raise {A} e m.
Arguments OutOfFuel {A} m.

Definition machine_of {A} (r : res A) : machine :=
  match r with Ret _ m => m | Raise _ m => m | OutOfFuel m => m end.

Definition bind {A B} (c : res A) (k : A → machine → res B) : res B :=
  match c with
  | Ret a m => k a m
  | Raise e m => Raise e m
  | OutOfFuel m => OutOfFuel m
  end.

(** [try: c except Exception as e: handler] *)
Definition try_except_Exception {A} (c : res A) (handler : pyexc → machine → res A)
    : res A :=
  match c with
  | Raise e m => if is_Exception e then handler e m else Raise e m
  | _ => c
  end.

(** How a [for] loop whose body may [return] ends one round. *)
Inductive completion := Normal | Returned.

(** An instance: its class and the two attributes [__init__] sets. *)
Record flow := {
  cls : flow_class;
  _methods : gmap string method;
  _state : pyval
}.

Module Flow.

(** Attribute lookup along the method resolution order. *)
Fixpoint mro_lookup (name : string) (mro : list namespace) : option attr_value :=
  match mro with
  | [] => None
  | ns :: mro' =>
      match dict_get name ns with Some v => Some v | None => mro_lookup name mro' end
  end.

Definition getattr (c : flow_class) (name : string) : option attr_value :=
  mro_lookup name (cls_dct c :: cls_bases c).

(** The names [dir] finds in the class and its ancestors. *)
Definition dir (c : flow_class) : list string :=
  concat (map (map fst) (cls_dct c :: cls_bases c)).

(** [self.initial_state]; [Flow] itself binds it to [None] (line 42). *)
Definition initial_state (c : flow_class) : pyval :=
  match getattr c "initial_state" with
  | Some (AValue v) => v
  | Some (AFunction _) => VFunc "initial_state"
  | None => VNone
  end.

Definition _create_initial_state (c : flow_class) (h : heap) : heap * (pyexc + pyval) :=
  match initial_state c with
  | VNone => let '(h', l) := alloc h empty_dict in (h', inr (VRef l))
  | VType name init => call_type name init h
  | v => (h, inr v)
  end.

(** [callable(getattr(self, method_name))], with what the call does.  A
    class object is callable too; its entry in [_methods] is never looked
    up, as the engine only looks up names that carry a step attribute. *)
Definition callable (a : attr_value) : option method :=
  match a with
  | AFunction f => Some (body f)
  | AValue _ => None
  end.

(** [getattr(self, method_name)], when it is callable. *)
Definition bound_method (c : flow_class) (method_name : string) : option method :=
  match getattr c method_name with
  | Some a => callable a
  | None => None
  end.

(** The loop of [__init__] (lines 48 to 52). *)
Definition collect_methods (c : flow_class) : gmap string method :=
  foldl (λ methods method_name,
           match bound_method c method_name with
           | Some f =>
               if String.prefix "__" method_name then methods
               else <[method_name := f]> methods
           | None => methods
           end) ∅ (dir c).

Definition __init__ (c : flow_class) (h : heap) : heap * (pyexc + flow) :=
  match _create_initial_state c h with
  | (h', inl e) => (h', inl e)
  | (h', inr state) =>
      (h', inr {| cls := c; _methods := collect_methods c; _state := state |})
  end.

(** [self._methods[name]], called with [arg] when there is one. *)
Definition call_method (self : flow) (name : string) (arg : option pyval)
    (m : machine) : res pyval :=
  match _methods self !! name with
  | None => Raise (KeyError name) m
  | Some f =>
      let '(h', r) := f (m_heap m) arg in
      let m' := {| m_heap := h'; m_log := m_log m ++ [Invoke name arg] |} in
      match r with
      | inl e => Raise e m'
      | inr v => Ret v m'
      end
  end.

Definition error_line (listener : string) (e : pyexc) : string :=
  "Error in method " +:+ listener +:+ ": " +:+ exc_str e.

(** One round of the loop of [_execute_listeners] (lines 77 to 82);
    [recur] is the recursive call. *)
Definition listener_round (self : flow) (recur : string → pyval → machine → res unit)
    (result : pyval) (listener : string) (m : machine) : res completion :=
  try_except_Exception
    (bind (call_method self listener (Some result) m) (λ listener_result m1,
     bind (recur listener listener_result m1) (λ _ m2,
     Ret Normal m2)))
    (λ e m', Ret Returned (emit (Print (error_line listener e)) m')).

Fixpoint listener_loop (self : flow) (recur : string → pyval → machine → res unit)
    (result : pyval) (ls : list string) (m : machine) : res completion :=
  match ls with
  | [] => Ret Normal m
  | listener :: ls' =>
      match listener_round self recur result listener m with
      | Ret Normal m' => listener_loop self recur result ls' m'
      | r => r
      end
  end.

(** [fuel] bounds the depth of the recursion. *)
Fixpoint _execute_listeners (fuel : nat) (self : flow) (trigger_method : string)
    (result : pyval) (m : machine) : res unit :=
  match fuel with
  | 0 => OutOfFuel m
  | S fuel' =>
      match _listeners (cls self) !! trigger_method with
      | None => Ret tt m
      | Some ls =>
          bind (listener_loop self (_execute_listeners fuel' self) result ls m)
               (λ _ m', Ret tt m')
      end
  end.

(** The loop of [run] (lines 70 to 72). *)
Fixpoint start_loop (fuel : nat) (self : flow) (starts : list string) (m : machine)
    : res unit :=
  match starts with
  | [] => Ret tt m
  | start_method :: starts' =>
      bind (call_method self start_method None m) (λ result m1,
      bind (_execute_listeners fuel self start_method result m1) (λ _ m2,
      start_loop fuel self starts' m2))
  end.

Definition run (fuel : nat) (self : flow) (m : machine) : res unit :=
  match _start_methods (cls self) with
  | [] => Raise (ValueError "No start method defined") m
  | _ :: _ => start_loop fuel self (_start_methods (cls self)) m
  end.

End Flow.

(** ** Vocabulary of the statements *)

(** The names a step's triggers resolve to. *)
Definition trigger_names (a : attr_value) : list string :=
  match trigger_methods_of a with
  | None => []
  | Some ts =>
      omap (λ t, match FlowMeta.trigger_name t with inr n => Some n | inl _ => None end) ts
  end.

(** Every trigger of the entry has a name. *)
Definition triggers_named (a : attr_value) : Prop :=
  ∀ ts, trigger_methods_of a = Some ts → TCallable None ∉ ts.

(** The listeners that declare [t], in declaration order; a listener that
    lists [t] several times stands once per listing. *)
Definition declaring (t : string) (dct : namespace) : list string :=
  flat_map (λ kv, map (λ _, kv.1) (filter (λ n, n = t) (trigger_names kv.2))) dct.

(** The listeners that declare [t], in declaration order, as the graph
    builder is specified: each of them once. *)
Definition spec_listenersByTrigger (t : string) (dct : namespace) : list string :=
  map fst (filter (λ kv, t ∈ trigger_names kv.2) dct).

(** The entry points, in declaration order. *)
Definition spec_entryPoints (dct : namespace) : list string :=
  map fst (filter (λ kv, has_is_start_method kv.2 = true) dct).

(** No key of the listener table is bound to the empty list. *)
Definition no_empty_entry (listeners : gmap string (list string)) : Prop :=
  ∀ t, listeners !! t ≠ Some [].

(** [listeners[t]], or nothing when [t] is not a key. *)
Definition listeners_at (listeners : gmap string (list string)) (t : string)
    : list string :=
  default [] (listeners !! t).

(** A declared step: a name of the class body tagged as a start method or
    as a listener. *)
Definition is_step (a : attr_value) : Prop :=
  has_is_start_method a = true ∨ is_Some (trigger_methods_of a).

Definition declared_step (dct : namespace) (name : string) : Prop :=
  ∃ a, (name, a) ∈ dct ∧ is_step a.

(** The call of an entry point, as the log shows it. *)
Definition entry_call (ev : event) : Prop :=
  match ev with Invoke _ None => True | _ => False end.

(** What the propagation below a step may log: calls of listeners, each
    with an upstream result, of names in [Q], and printed lines. *)
Definition listener_event (Q : string → Prop) (ev : event) : Prop :=
  match ev with
  | Invoke name (Some _) => Q name
  | Invoke _ None => False
  | Print _ => True
  end.

(** The log of [m'] is the log of [m] followed by events that all satisfy
    [P]. *)
Definition extends_with (P : event → Prop) (m m' : machine) : Prop :=
  ∃ evs, m_log m' = m_log m ++ evs ∧ Forall P evs.

(** Any event at all. *)
Definition any_event : event → Prop := λ _, True.

(** What a run may log: calls of names in [Q] and printed lines. *)
Definition call_of (Q : string → Prop) (ev : event) : Prop :=
  match ev with
  | Invoke name _ => Q name
  | Print _ => True
  end.

(** The keys of a dict that is filled in the order [keys]. *)
Definition first_occurrences (keys : list string) : list string :=
  foldl (λ acc k, if decide (k ∈ acc) then acc else acc ++ [k]) [] keys.

(** [Q] holds of every listener of a step of which it holds. *)
Definition closed_under_listeners (self : flow) (Q : string → Prop) : Prop :=
  ∀ t ls l, Q t → _listeners (cls self) !! t = Some ls → l ∈ ls → Q l.

(** The two flows have the same methods and the same listeners at the
    names of [Q]. *)
Definition agree_on (Q : string → Prop) (self self' : flow) : Prop :=
  ∀ n, Q n →
    _methods self !! n = _methods self' !! n ∧
    _listeners (cls self) !! n = _listeners (cls self') !! n.

(** [seg] is what one entry point adds to the log: its own call, with no
    argument, then what the propagation of its result logs until it
    returns, in which no entry point is called. *)
Definition entry_segment (fuel : nat) (self : flow) (s : string) (seg : list event)
    : Prop :=
  ∃ m1 result m2 m3 evs,
    Flow.call_method self s None m1 = Ret result m2 ∧
    Flow._execute_listeners fuel self s result m2 = Ret tt m3 ∧
    m_log m3 = m_log m2 ++ evs ∧
    Forall (listener_event (λ _, True)) evs ∧
    seg = Invoke s None :: evs.

(** The trigger graph has no cycle: [rank] decreases along every edge. *)
Definition ranked (self : flow) (rank : string → nat) : Prop :=
  ∀ t ls l, _listeners (cls self) !! t = Some ls → l ∈ ls → rank l < rank t.

(** Every start method is in the method table and returns. *)
Definition entry_points_return (self : flow) : Prop :=
  ∀ s, s ∈ _start_methods (cls self) →
    ∃ f, _methods self !! s = Some f ∧ ∀ h, ∃ h' v, f h None = (h', inr v).

(** No method interrupts the run with an exception that is not an
    [Exception]. *)
Definition raise_only_Exception (self : flow) : Prop :=
  ∀ name f h arg h' e,
    _methods self !! name = Some f → f h arg = (h', inl e) → is_Exception e = true.

(** ** Scenarios *)

Module Scenario.

Definition returns (v : pyval) : method := λ h _, (h, inr v).

Definition raises (e : pyexc) : method := λ h _, (h, inl e).

(** [return input * 2] *)
Definition doubles : method := λ h arg,
  match arg with
  | Some (VInt z) => (h, inr (VInt (z * 2)))
  | _ => (h, inl (Exc "TypeError" "unsupported operand type(s) for *"))
  end.

Definition boom : pyexc := Exc "RuntimeError" "boom".

Definition empty_class : flow_class :=
  {| cls_dct := []; cls_bases := []; _start_methods := []; _listeners := ∅ |}.

(** The class statement followed by the construction of an instance on
    the empty heap; the empty flow stands for a failure of either. *)
Definition instantiate (bases : list namespace)
    (class_body : list (string * attr_value)) : flow :=
  match class_statement bases class_body with
  | inl _ => {| cls := empty_class; _methods := ∅; _state := VNone |}
  | inr c =>
      match Flow.__init__ c [] with
      | (_, inr self) => self
      | (_, inl _) => {| cls := empty_class; _methods := ∅; _state := VNone |}
      end
  end.

(** The machine once the instance is built: its state dict at location 0
    and nothing logged. *)
Definition m0 : machine := {| m_heap := [empty_dict]; m_log := [] |}.

(** [fetch] returns 10, [double] listens on it, [report] on [double]. *)
Definition chain_body : list (string * attr_value) :=
  [("fetch", AFunction (start (def (returns (VInt 10)))));
   ("double", AFunction (listen [TStr "fetch"] (def doubles)));
   ("report", AFunction (listen [TCallable (Some "double")] (def (returns VNone))))].

Definition chain_flow : flow := instantiate [] chain_body.

(** [x] with two listeners, of which the first, [y], raises. *)
Definition siblings_body : list (string * attr_value) :=
  [("x", AFunction (start (def (returns (VInt 1)))));
   ("y", AFunction (listen [TStr "x"] (def (raises boom))));
   ("z", AFunction (listen [TStr "x"] (def (returns VNone))))].

Definition siblings_flow : flow := instantiate [] siblings_body.

(** Two entry points, of which the first raises. *)
Definition failing_entry_body : list (string * attr_value) :=
  [("a", AFunction (start (def (raises boom))));
   ("b", AFunction (start (def (returns VNone))))].

Definition failing_entry_flow : flow := instantiate [] failing_entry_body.

(** Two entry points with no listener. *)
Definition two_entries_body : list (string * attr_value) :=
  [("a", AFunction (start (def (returns (VInt 1)))));
   ("b", AFunction (start (def (returns (VInt 2)))))].

Definition two_entries_flow : flow := instantiate [] two_entries_body.

(** A class body with no start method. *)
Definition no_entry_body : list (string * attr_value) :=
  [("double", AFunction (listen [TStr "fetch"] (def doubles)))].

Definition no_entry_flow : flow := instantiate [] no_entry_body.

(** [orphan] listens on a name that no step bears. *)
Definition orphan_body : list (string * attr_value) :=
  [("fetch", AFunction (start (def (returns (VInt 10)))));
   ("orphan", AFunction (listen [TStr "ghost"] (def (returns VNone))));
   ("double", AFunction (listen [TStr "fetch"] (def doubles)))].

Definition orphan_flow : flow := instantiate [] orphan_body.

(** [both] lists its triggers in the order [second], [first]; [other] is
    declared after it and listens on [first]. *)
Definition order_body : list (string * attr_value) :=
  [("first", AFunction (start (def (returns VNone))));
   ("second", AFunction (start (def (returns VNone))));
   ("both", AFunction (listen [TStr "second"; TStr "first"] (def (returns VNone))));
   ("other", AFunction (listen [TStr "first"] (def (returns VNone))))].

(** The name [a] is bound twice. *)
Definition duplicate_body : list (string * attr_value) :=
  [("a", AFunction (start (def (returns (VInt 1)))));
   ("b", AFunction (listen [TStr "a"] (def (returns VNone))));
   ("a", AFunction (start (def (returns (VInt 2)))))].

(** A parent class with an entry point and a listener, and a subclass
    that declares an entry point of its own. *)
Definition parent_body : list (string * attr_value) :=
  [("load", AFunction (start (def (returns (VInt 1)))));
   ("audit", AFunction (listen [TStr "load"] (def (returns VNone))))].

Definition child_body : list (string * attr_value) :=
  [("extra", AFunction (start (def (returns (VInt 2)))))].

Definition child_flow : flow := instantiate [class_namespace parent_body] child_body.

(** Three class bodies for the three branches of [_create_initial_state]:
    no [initial_state], a class, and a dict that exists already at
    location 0. *)
Definition typed_state_body : list (string * attr_value) :=
  [("initial_state", AValue (VType "Counter" (inr [("count", VInt 0)])))].

Definition shared_state_body : list (string * attr_value) :=
  [("initial_state", AValue (VRef 0))].

Definition class_of (bases : list namespace)
    (class_body : list (string * attr_value)) : flow_class :=
  match class_statement bases class_body with
  | inl _ => empty_class
  | inr c => c
  end.

End Scenario.

(** ** Vocabulary of the further statements *)

(** [seg] is what one listener adds to the log when it is called with
    [result]: its own call, then what the propagation of its own result
    logs until it returns. *)
Definition listener_segment (fuel : nat) (self : flow) (result : pyval)
    (l : string) (seg : list event) : Prop :=
  ∃ m1 v m2 m3 evs,
    Flow.call_method self l (Some result) m1 = Ret v m2 ∧
    Flow._execute_listeners fuel self l v m2 = Ret tt m3 ∧
    m_log m3 = m_log m2 ++ evs ∧
    seg = Invoke l (Some result) :: evs.

(** Every method of the table keeps the property [I] of the heap. *)
Definition steps_keep (I : heap → Prop) (self : flow) : Prop :=
  ∀ name f h arg h' r, _methods self !! name = Some f → f h arg = (h', r) → I h → I h'.

(** Every method of the table returns, on every heap and argument. *)
Definition every_step_returns (self : flow) : Prop :=
  ∀ name f h arg, _methods self !! name = Some f → ∃ h' v, f h arg = (h', inr v).

(** Every listener of the graph is in the method table. *)
Definition listeners_registered (self : flow) : Prop :=
  ∀ t ls l, _listeners (cls self) !! t = Some ls → l ∈ ls → is_Some (_methods self !! l).

(** A printed line. *)
Definition is_print (ev : event) : Prop :=
  match ev with Print _ => True | Invoke _ _ => False end.

(** The call of [name], with whatever argument. *)
Definition is_call_of (name : string) (ev : event) : Prop :=
  match ev with Invoke n _ => n = name | Print _ => False end.

(** A binding that neither decorator has touched. *)
Definition undecorated (a : attr_value) : Prop :=
  has_is_start_method a = false ∧ trigger_methods_of a = None.

(** The two class dicts bind the same names in the same order, tagged
    alike as start methods, with triggers of the same names in the same
    order. *)
Definition same_roles (dct dct' : namespace) : Prop :=
  Forall2 (λ kv kv',
             kv.1 = kv'.1
             ∧ has_is_start_method kv.2 = has_is_start_method kv'.2
             ∧ trigger_names kv.2 = trigger_names kv'.2) dct dct'.

Module Scenario2.

(** [n = n + 1] on the dict at location 0, whatever it held. *)
Definition bump : method := λ h _,
  match h !! 0 with
  | Some o =>
      let n := match dict_get "n" (obj_fields o) with Some (VInt z) => z | _ => 0%Z end in
      (<[0 := {| obj_type := obj_type o;
                 obj_fields := dict_setitem "n" (VInt (n + 1)) (obj_fields o) |}]> h,
       inr (VInt (n + 1)))
  | None => (h, inl (Exc "KeyError" "'n'"))
  end.

(** An entry point and a listener that both count in the state. *)
Definition counting_body : list (string * attr_value) :=
  [("first", AFunction (start (def bump)));
   ("second", AFunction (listen [TStr "first"] (def bump)))].

Definition counting_flow : flow := Scenario.instantiate [] counting_body.

(** A start method and a listener whose names begin with two
    underscores. *)
Definition dunder_body : list (string * attr_value) :=
  [("begin", AFunction (start (def (Scenario.returns (VInt 1)))));
   ("__call__", AFunction (start (def (Scenario.returns (VInt 2)))));
   ("__str__", AFunction (listen [TStr "begin"] (def (Scenario.returns VNone))));
   ("after", AFunction (listen [TStr "begin"] (def (Scenario.returns VNone))))].

Definition dunder_flow : flow := Scenario.instantiate [] dunder_body.

(** [again] listens on itself. *)
Definition cycle_body : list (string * attr_value) :=
  [("again", AFunction (start (listen [TStr "again"] (def (Scenario.returns VNone)))))].

Definition cycle_flow : flow := Scenario.instantiate [] cycle_body.

(** [leaf] raises below [left]; [right] is declared after [left]. *)
Definition deep_failure_body : list (string * attr_value) :=
  [("root", AFunction (start (def (Scenario.returns (VInt 1)))));
   ("left", AFunction (listen [TStr "root"] (def (Scenario.returns (VInt 2)))));
   ("leaf", AFunction (listen [TStr "left"] (def (Scenario.raises Scenario.boom))));
   ("right", AFunction (listen [TStr "root"] (def (Scenario.returns (VInt 3)))))].

Definition deep_failure_flow : flow := Scenario.instantiate [] deep_failure_body.

(** A class body with a helper method beside its steps. *)
Definition helper_body : list (string * attr_value) :=
  [("fetch", AFunction (start (def (Scenario.returns (VInt 10)))));
   ("helper", AFunction (def (Scenario.returns VNone)));
   ("double", AFunction (listen [TStr "fetch"] (def Scenario.doubles)))].

Definition helper_flow : flow := Scenario.instantiate [] helper_body.

(** The chain of [Scenario.chain_body] with its triggers given the other
    way: a name for a callable and a callable for a name. *)
Definition chain_body' : list (string * attr_value) :=
  [("fetch", AFunction (start (def (Scenario.returns (VInt 10)))));
   ("double", AFunction (listen [TCallable (Some "fetch")] (def Scenario.doubles)));
   ("report", AFunction (listen [TStr "double"] (def (Scenario.returns VNone))))].

(** A listener whose trigger is a callable without a name. *)
Definition nameless_body : list (string * attr_value) :=
  [("fetch", AFunction (start (def (Scenario.returns (VInt 10)))));
   ("double", AFunction (listen [TStr "fetch"; TCallable None] (def Scenario.doubles)))].

(** A class whose state class cannot be called without arguments. *)
Definition strict_state_body : list (string * attr_value) :=
  [("initial_state",
    AValue (VType "Strict" (inl (Exc "ValidationError" "field required"))))].

(** A subclass that overrides [load] of [Scenario.parent_body] with a
    value that is not callable, and declares nothing else. *)
Definition shadowing_body : list (string * attr_value) :=
  [("load", AValue (VInt 0))].

End Scenario2.

(** ** The graph builder *)

Section Builder.

Implicit Types (listeners : gmap string (list string)) (dct items : namespace).

Lemma add_listener_lookup attr_name listeners tr listeners' :
  FlowMeta.add_listener attr_name listeners tr = inr listeners' →
  ∃ tn, FlowMeta.trigger_name tr = inr tn ∧
    ∀ t, listeners' !! t =
         if decide (t = tn) then Some (listeners_at listeners tn ++ [attr_name])
         else listeners !! t.
Proof.
  unfold FlowMeta.add_listener, listeners_at.
  destruct (FlowMeta.trigger_name tr) as [e|tn]; [discriminate|].
  intros [= <-]. exists tn. split; [done|]. intros t.
  destruct (decide (t = tn)) as [->|Hne].
  - rewrite lookup_insert_eq. f_equal. f_equal.
    destruct (listeners !! tn) eqn:E; simpl; [by rewrite E|].
    by rewrite lookup_insert_eq.
  - rewrite lookup_insert_ne by done.
    destruct (listeners !! tn); [done|]. by rewrite lookup_insert_ne.
Qed.

Lemma add_listeners_at attr_name ts : ∀ listeners listeners',
  FlowMeta.add_listeners attr_name listeners ts = inr listeners' →
  no_empty_entry listeners →
  no_empty_entry listeners' ∧
  (TCallable None ∉ ts) ∧
  ∀ t, listeners_at listeners' t =
       (listeners_at listeners t
        ++ map (λ _, attr_name)
             (filter (λ n, n = t)
                (omap (λ t, match FlowMeta.trigger_name t with
                            | inr n => Some n | inl _ => None end) ts))).
Proof.
  induction ts as [|tr ts IH]; simpl; intros listeners listeners' H Hne.
  - injection H as <-. split; [done|]. split; [by intros ?%elem_of_nil|].
    intros t. by rewrite app_nil_r.
  - destruct (FlowMeta.add_listener attr_name listeners tr) as [e|l1] eqn:E1;
      [discriminate|].
    destruct (add_listener_lookup _ _ _ _ E1) as (tn & Htn & Hl1).
    assert (no_empty_entry l1) as Hne1.
    { intros t. rewrite Hl1. case_decide; [|apply Hne].
      intros [= Happ]. by destruct (listeners_at listeners tn). }
    destruct (IH _ _ H Hne1) as (Hne' & Hnamed & Hat).
    split; [done|]. split.
    { intros [<-|Hin]%elem_of_cons; [discriminate|done]. }
    intros t. rewrite Hat, Htn. unfold listeners_at at 1. rewrite Hl1.
    rewrite filter_cons. case_decide as Ht; destruct (decide (tn = t)) as [->|Ht'];
      try congruence; simpl.
    + by rewrite <- app_assoc.
    + done.
Qed.

Lemma spec_entryPoints_cons k a dct :
  spec_entryPoints ((k, a) :: dct) =
  (if has_is_start_method a then [k] else []) ++ spec_entryPoints dct.
Proof.
  unfold spec_entryPoints. rewrite filter_cons. simpl.
  destruct (has_is_start_method a); [by rewrite decide_True|by rewrite decide_False].
Qed.

Lemma declaring_cons t k a dct :
  declaring t ((k, a) :: dct) =
  map (λ _, k) (filter (λ n, n = t) (trigger_names a)) ++ declaring t dct.
Proof. reflexivity. Qed.

Lemma collect_at items : ∀ start_methods listeners start_methods' listeners',
  FlowMeta.collect items start_methods listeners = inr (start_methods', listeners') →
  no_empty_entry listeners →
  no_empty_entry listeners' ∧
  Forall (λ kv, triggers_named kv.2) items ∧
  start_methods' = start_methods ++ spec_entryPoints items ∧
  ∀ t, listeners_at listeners' t = listeners_at listeners t ++ declaring t items.
Proof.
  induction items as [|[attr_name attr_value] items IH];
    intros sm ls sm' ls' H Hne.
  - injection H as <- <-. repeat split; [done|constructor|by rewrite app_nil_r|].
    intros t. by rewrite app_nil_r.
  - cbn [FlowMeta.collect] in H.
    assert ((if has_is_start_method attr_value then sm ++ [attr_name] else sm)
            = sm ++ (if has_is_start_method attr_value then [attr_name] else []))
      as Hsm1 by (destruct (has_is_start_method attr_value); by rewrite ?app_nil_r).
    rewrite Hsm1 in H. clear Hsm1.
    destruct (trigger_methods_of attr_value) as [ts|] eqn:Ets.
    + destruct (FlowMeta.add_listeners attr_name ls ts) as [e|ls1] eqn:E1;
        [discriminate|].
      destruct (add_listeners_at _ _ _ _ E1 Hne) as (Hne1 & Hnamed & Hat1).
      destruct (IH _ _ _ _ H Hne1) as (Hne' & Hall & Hsm & Hat).
      repeat split; [done| |..].
      * constructor; [|done]. intros ts' Hts'. simpl in Hts'. congruence.
      * rewrite Hsm, spec_entryPoints_cons. by rewrite <- app_assoc.
      * intros t. rewrite Hat, Hat1, declaring_cons. unfold trigger_names.
        rewrite Ets. by rewrite <- app_assoc.
    + destruct (IH _ _ _ _ H Hne) as (Hne' & Hall & Hsm & Hat).
      repeat split; [done| |..].
      * constructor; [|done]. intros ts' Hts'. simpl in Hts'. congruence.
      * rewrite Hsm, spec_entryPoints_cons. by rewrite <- app_assoc.
      * intros t. rewrite Hat, declaring_cons. unfold trigger_names.
        by rewrite Ets.
Qed.

Lemma add_listeners_named attr_name ts : ∀ listeners,
  TCallable None ∉ ts →
  ∃ listeners', FlowMeta.add_listeners attr_name listeners ts = inr listeners'.
Proof.
  induction ts as [|tr ts IH]; simpl; intros listeners Hts; [by eexists|].
  apply not_elem_of_cons in Hts as [Htr Hts].
  unfold FlowMeta.add_listener.
  destruct tr as [s|[n|]]; simpl; [by apply IH|by apply IH|done].
Qed.

Lemma collect_named items : ∀ start_methods listeners,
  Forall (λ kv, triggers_named kv.2) items →
  ∃ r, FlowMeta.collect items start_methods listeners = inr r.
Proof.
  induction items as [|[attr_name attr_value] items IH]; simpl;
    intros sm ls Hall; [by eexists|].
  apply Forall_cons in Hall as [Hhd Htl]. simpl in Hhd.
  destruct (trigger_methods_of attr_value) as [ts|] eqn:Ets; [|by apply IH].
  destruct (add_listeners_named attr_name ts ls) as [ls1 ->]; [by apply Hhd|].
  by apply IH.
Qed.

(** What [FlowMeta.__new__] makes of a namespace. *)
Lemma new_graph bases dct c :
  FlowMeta.__new__ bases dct = inr c →
  cls_dct c = dct ∧ cls_bases c = bases ∧
  Forall (λ kv, triggers_named kv.2) dct ∧
  _start_methods c = spec_entryPoints dct ∧
  ∀ t, _listeners c !! t =
       match declaring t dct with [] => None | l :: ls => Some (l :: ls) end.
Proof.
  unfold FlowMeta.__new__.
  destruct (FlowMeta.collect dct [] ∅) as [e|[sm ls]] eqn:E; [discriminate|].
  intros [= <-]. simpl.
  destruct (collect_at _ _ _ _ _ E) as (Hne & Hall & Hsm & Hat).
  { intros t. by rewrite lookup_empty. }
  repeat split; [done..|].
  intros t. specialize (Hat t). specialize (Hne t).
  unfold listeners_at in Hat. rewrite lookup_empty in Hat. simpl in Hat.
  rewrite <- Hat. destruct (ls !! t) as [[|l l']|]; done.
Qed.

Lemma new_succeeds bases dct :
  Forall (λ kv, triggers_named kv.2) dct →
  ∃ c, FlowMeta.__new__ bases dct = inr c.
Proof.
  intros Hall. unfold FlowMeta.__new__.
  destruct (collect_named dct [] ∅ Hall) as [[sm ls] ->]. by eexists.
Qed.

Lemma elem_of_declaring l t dct :
  l ∈ declaring t dct ↔ ∃ a, (l, a) ∈ dct ∧ t ∈ trigger_names a.
Proof.
  unfold declaring. rewrite list_elem_of_In, in_flat_map. split.
  - intros ([k a] & Hin & Hl). simpl in Hl.
    apply list_elem_of_In, list_elem_of_fmap in Hl as (n & -> & Hn).
    apply list_elem_of_filter in Hn as [-> Hn].
    exists a. split; [by apply list_elem_of_In|done].
  - intros (a & Hin & Ht). exists (l, a). split; [by apply list_elem_of_In|].
    simpl. apply list_elem_of_In, list_elem_of_fmap. exists t. split; [done|].
    by apply list_elem_of_filter.
Qed.

Lemma elem_of_spec_entryPoints s dct :
  s ∈ spec_entryPoints dct ↔ ∃ a, (s, a) ∈ dct ∧ has_is_start_method a = true.
Proof.
  unfold spec_entryPoints. rewrite list_elem_of_fmap. split.
  - intros ([k a] & -> & Hin). apply list_elem_of_filter in Hin as [? ?]. by exists a.
  - intros (a & Hin & Ha). exists (s, a). split; [done|]. by apply list_elem_of_filter.
Qed.

Lemma spec_listenersByTrigger_cons t k a dct :
  spec_listenersByTrigger t ((k, a) :: dct) =
  (if decide (t ∈ trigger_names a) then [k] else []) ++ spec_listenersByTrigger t dct.
Proof.
  unfold spec_listenersByTrigger. rewrite filter_cons. simpl.
  by destruct (decide (t ∈ trigger_names a)).
Qed.

Lemma filter_eq_NoDup (k t : string) (ns : list string) :
  NoDup ns →
  map (λ _, k) (filter (λ n, n = t) ns) = if decide (t ∈ ns) then [k] else [].
Proof.
  induction 1 as [|n ns Hn Hns IHns]; [done|].
  rewrite filter_cons. destruct (decide (n = t)) as [->|Hne].
  - simpl. rewrite IHns. rewrite decide_False by done.
    rewrite decide_True by (by left). done.
  - rewrite IHns. destruct (decide (t ∈ ns)).
    + rewrite decide_True by (by right). done.
    + rewrite decide_False; [done|]. intros [?|?]%elem_of_cons; congruence.
Qed.

(** A listener that lists each trigger once is declared once per trigger. *)
Lemma declaring_once t dct :
  Forall (λ kv, NoDup (trigger_names kv.2)) dct →
  declaring t dct = spec_listenersByTrigger t dct.
Proof.
  induction 1 as [|[k a] dct Hnd _ IH]; [done|]. simpl in Hnd.
  rewrite declaring_cons, spec_listenersByTrigger_cons, IH.
  by rewrite (filter_eq_NoDup _ _ _ Hnd).
Qed.

End Builder.

(** ** Class bodies as dicts *)

Section Namespace.

Context {V : Type}.
Implicit Types (d : list (string * V)) (k n : string) (v : V).

Lemma dict_get_setitem k v d n :
  dict_get n (dict_setitem k v d) = if decide (k = n) then Some v else dict_get n d.
Proof.
  induction d as [|[k' v'] d IH]; simpl.
  - by destruct (decide (k = n)).
  - destruct (decide (k' = k)) as [->|Hk]; simpl.
    + by destruct (decide (k = n)).
    + rewrite IH. destruct (decide (k' = n)) as [->|]; [|done].
      by rewrite decide_False by done.
Qed.

Lemma dict_setitem_keys k v d :
  (dict_setitem k v d).*1 = if decide (k ∈ d.*1) then d.*1 else d.*1 ++ [k].
Proof.
  induction d as [|[k' v'] d IH]; csimpl; [done|].
  destruct (decide (k' = k)) as [->|Hk]; csimpl.
  - by rewrite decide_True by left.
  - rewrite IH. destruct (decide (k ∈ d.*1)).
    + by rewrite decide_True by (by right).
    + rewrite decide_False; [done|]. intros [?|?]%elem_of_cons; congruence.
Qed.

Lemma dict_get_Some_elem_of k v d : dict_get k d = Some v → (k, v) ∈ d.
Proof.
  induction d as [|[k' v'] d IH]; csimpl; [done|].
  destruct (decide (k' = k)) as [->|]; [intros [= ->]; left|right; auto].
Qed.

Lemma dict_get_None k d : dict_get k d = None ↔ k ∉ d.*1.
Proof.
  induction d as [|[k' v'] d IH]; csimpl.
  - split; [intros _ ?%elem_of_nil; done|done].
  - rewrite not_elem_of_cons. destruct (decide (k' = k)) as [->|Hne].
    + split; [done|]. by intros [? _].
    + rewrite IH. split; [intros ?; split; [congruence|done]|by intros [_ ?]].
Qed.

Lemma elem_of_dict_get k v d : NoDup d.*1 → (k, v) ∈ d → dict_get k d = Some v.
Proof.
  induction d as [|[k' v'] d IH]; csimpl; [by intros _ ?%elem_of_nil|].
  intros [Hk' Hnd]%NoDup_cons [[= -> ->]|Hin]%elem_of_cons.
  - by rewrite decide_True.
  - rewrite decide_False; [by apply IH|]. intros ->. apply Hk'.
    apply list_elem_of_fmap. by exists (k, v).
Qed.

Lemma dict_get_app n d d' :
  dict_get n (d ++ d') = match dict_get n d with Some v => Some v | None => dict_get n d' end.
Proof.
  induction d as [|[k v] d IH]; csimpl; [done|]. by destruct (decide (k = n)).
Qed.

End Namespace.

Lemma first_occurrences_NoDup_from (keys : list string) : ∀ acc : list string,
  NoDup acc →
  NoDup (foldl (λ acc k, if decide (k ∈ acc) then acc else acc ++ [k]) acc keys).
Proof.
  induction keys as [|k keys IH]; simpl; intros acc Hacc; [done|].
  apply IH. destruct (decide (k ∈ acc)); [done|].
  apply NoDup_app. split; [done|]. split; [|apply NoDup_singleton].
  intros x Hx ->%list_elem_of_singleton. done.
Qed.

Lemma class_namespace_from class_body : ∀ d : namespace,
  let ns := fold_left (λ d kv, dict_setitem kv.1 kv.2 d) class_body d in
  ns.*1 = foldl (λ acc k, if decide (k ∈ acc) then acc else acc ++ [k]) d.*1 class_body.*1
  ∧ ∀ n, dict_get n ns =
         match dict_get n (reverse class_body) with
         | Some v => Some v
         | None => dict_get n d
         end.
Proof.
  induction class_body as [|[k v] class_body IH]; simpl; intros d; [done|].
  destruct (IH (dict_setitem k v d)) as [Hkeys Hget]. split.
  - rewrite Hkeys. by rewrite dict_setitem_keys.
  - intros n. rewrite Hget, reverse_cons, dict_get_app. simpl.
    destruct (dict_get n (reverse class_body)); [done|].
    rewrite dict_get_setitem. by destruct (decide (k = n)).
Qed.

(** The namespace binds each name of the body once, at the place of its
    first binding and to the value of its last. *)
Lemma class_namespace_dict class_body :
  (class_namespace class_body).*1 = first_occurrences class_body.*1
  ∧ NoDup (class_namespace class_body).*1
  ∧ ∀ n, dict_get n (class_namespace class_body) = dict_get n (reverse class_body).
Proof.
  destruct (class_namespace_from class_body []) as [Hkeys Hget].
  split; [exact Hkeys|]. split.
  - unfold class_namespace. rewrite Hkeys. apply first_occurrences_NoDup_from. constructor.
  - intros n. unfold class_namespace. rewrite Hget.
    by destruct (dict_get n (reverse class_body)).
Qed.

Lemma class_namespace_subseteq class_body k a :
  (k, a) ∈ class_namespace class_body → (k, a) ∈ class_body.
Proof.
  destruct (class_namespace_dict class_body) as (_ & Hnd & Hget).
  intros Hin. apply elem_of_dict_get in Hin; [|exact Hnd].
  rewrite Hget in Hin. apply dict_get_Some_elem_of in Hin.
  by rewrite elem_of_reverse in Hin.
Qed.

(** ** The log of a run *)

Lemma extends_with_refl P m : extends_with P m m.
Proof. exists []. by rewrite app_nil_r. Qed.

Lemma extends_with_trans P m1 m2 m3 :
  extends_with P m1 m2 → extends_with P m2 m3 → extends_with P m1 m3.
Proof.
  intros (e1 & H1 & F1) (e2 & H2 & F2). exists (e1 ++ e2).
  split; [by rewrite H2, H1, app_assoc|by apply Forall_app].
Qed.

Lemma extends_with_mono (P P' : event → Prop) m m' :
  (∀ ev, P ev → P' ev) → extends_with P m m' → extends_with P' m m'.
Proof. intros HP (evs & H & F). exists evs. split; [done|]. by eapply Forall_impl. Qed.

Lemma extends_with_emit (P : event → Prop) ev m : P ev → extends_with P m (emit ev m).
Proof. intros Hev. exists [ev]. split; [done|]. by repeat constructor. Qed.

Section Engine.

Variable self : flow.

(** The three ways a call through the method table ends. *)
Lemma call_method_cases name arg m :
  (_methods self !! name = None ∧
   Flow.call_method self name arg m = Raise (KeyError name) m)
  ∨ ∃ f h' r, _methods self !! name = Some f ∧ f (m_heap m) arg = (h', r) ∧
      Flow.call_method self name arg m =
      match r with
      | inl e => Raise e {| m_heap := h'; m_log := m_log m ++ [Invoke name arg] |}
      | inr v => Ret v {| m_heap := h'; m_log := m_log m ++ [Invoke name arg] |}
      end.
Proof.
  unfold Flow.call_method. destruct (_methods self !! name) as [f|]; [|by left].
  right. destruct (f (m_heap m) arg) as [h' r] eqn:E. by exists f, h', r.
Qed.

Lemma call_method_log (P : event → Prop) name arg m :
  P (Invoke name arg) →
  extends_with P m (machine_of (Flow.call_method self name arg m)).
Proof.
  intros HP. destruct (call_method_cases name arg m) as [[_ ->]|(f & h' & r & _ & _ & ->)].
  - apply extends_with_refl.
  - destruct r; simpl; exists [Invoke name arg]; by repeat constructor.
Qed.

Section Log.

Variable Q : string → Prop.

Lemma listener_round_log recur result listener m :
  Q listener →
  (∀ v m1, extends_with (listener_event Q) m1 (machine_of (recur listener v m1))) →
  extends_with (listener_event Q) m
    (machine_of (Flow.listener_round self recur result listener m)).
Proof.
  intros HQ Hrec. unfold Flow.listener_round.
  pose proof (call_method_log (listener_event Q) listener (Some result) m HQ) as Hcall.
  destruct (Flow.call_method self listener (Some result) m) as [v m1|e m1|m1]; simpl in *.
  - specialize (Hrec v m1).
    destruct (recur listener v m1) as [[] m2|e m2|m2]; simpl in *.
    + by eapply extends_with_trans.
    + destruct (is_Exception e); simpl.
      * eapply extends_with_trans; [done|]. eapply extends_with_trans; [done|].
        by apply extends_with_emit.
      * by eapply extends_with_trans.
    + by eapply extends_with_trans.
  - destruct (is_Exception e); simpl; [|done].
    eapply extends_with_trans; [done|]. by apply extends_with_emit.
  - done.
Qed.

Lemma listener_loop_log recur result ls : ∀ m,
  Forall Q ls →
  (∀ l v m1, l ∈ ls →
     extends_with (listener_event Q) m1 (machine_of (recur l v m1))) →
  extends_with (listener_event Q) m
    (machine_of (Flow.listener_loop self recur result ls m)).
Proof.
  induction ls as [|l ls IH]; simpl; intros m HQ Hrec; [apply extends_with_refl|].
  apply Forall_cons in HQ as [Hl Hls].
  pose proof (listener_round_log recur result l m Hl
                (λ v m1, Hrec l v m1 (list_elem_of_here _ _))) as Hround.
  destruct (Flow.listener_round self recur result l m) as [[] m1|e m1|m1];
    simpl in *; try done.
  eapply extends_with_trans; [done|]. apply IH; [done|].
  intros l' v m2 Hl'. apply Hrec. by right.
Qed.

Hypothesis Q_closed : closed_under_listeners self Q.

(** Below a step of [Q], the engine calls listeners of [Q] only, each with
    an upstream result. *)
Lemma execute_listeners_log fuel : ∀ trigger_method result m,
  Q trigger_method →
  extends_with (listener_event Q) m
    (machine_of (Flow._execute_listeners fuel self trigger_method result m)).
Proof.
  induction fuel as [|fuel IH]; simpl; intros t result m Ht; [apply extends_with_refl|].
  destruct (_listeners (cls self) !! t) as [ls|] eqn:Els; [|apply extends_with_refl].
  assert (Forall Q ls) as HQls.
  { apply Forall_forall. intros l Hl. by eapply Q_closed. }
  pose proof (listener_loop_log (Flow._execute_listeners fuel self) result ls m HQls) as Hloop.
  destruct (Flow.listener_loop self (Flow._execute_listeners fuel self) result ls m);
    simpl in *; apply Hloop; intros l v m1 Hl; apply IH; by eapply Q_closed.
Qed.

Lemma listener_event_call_of ev : listener_event Q ev → call_of Q ev.
Proof. by destruct ev as [n [v|]|]. Qed.

Lemma start_loop_log fuel starts : ∀ m,
  Forall Q starts →
  extends_with (call_of Q) m (machine_of (Flow.start_loop fuel self starts m)).
Proof.
  induction starts as [|s starts IH]; simpl; intros m HQ; [apply extends_with_refl|].
  apply Forall_cons in HQ as [Hs Hstarts].
  pose proof (call_method_log (call_of Q) s None m Hs) as Hcall.
  destruct (Flow.call_method self s None m) as [v m1|e m1|m1]; simpl in *; try done.
  pose proof (execute_listeners_log fuel s v m1 Hs) as Hexec.
  apply (extends_with_mono _ (call_of Q)) in Hexec; [|apply listener_event_call_of].
  destruct (Flow._execute_listeners fuel self s v m1) as [[] m2|e m2|m2]; simpl in *.
  - eapply extends_with_trans; [done|]. eapply extends_with_trans; [done|]. by apply IH.
  - by eapply extends_with_trans.
  - by eapply extends_with_trans.
Qed.

(** A run calls names of [Q] only, when the start methods are in [Q]. *)
Lemma run_log fuel m :
  Forall Q (_start_methods (cls self)) →
  extends_with (call_of Q) m (machine_of (Flow.run fuel self m)).
Proof.
  intros HQ. unfold Flow.run.
  destruct (_start_methods (cls self)) as [|s starts] eqn:E; [apply extends_with_refl|].
  by apply start_loop_log.
Qed.

End Log.

End Engine.

(** ** Errors *)

Section Errors.

Variable self : flow.

Lemma listener_round_Raise recur result listener m e m' :
  (∀ v m1 e1 m2, recur listener v m1 = Raise e1 m2 → is_Exception e1 = false) →
  Flow.listener_round self recur result listener m = Raise e m' →
  is_Exception e = false.
Proof.
  intros Hrec. unfold Flow.listener_round.
  destruct (Flow.call_method self listener (Some result) m) as [v m1|e1 m1|m1]; simpl.
  - destruct (recur listener v m1) as [[] m2|e2 m2|m2] eqn:E; simpl; try done.
    destruct (is_Exception e2) eqn:E2; [done|]. by intros [= <- _].
  - destruct (is_Exception e1) eqn:E1; [done|]. by intros [= <- _].
  - done.
Qed.

Lemma listener_loop_Raise recur result ls : ∀ m e m',
  (∀ l v m1 e1 m2, l ∈ ls → recur l v m1 = Raise e1 m2 → is_Exception e1 = false) →
  Flow.listener_loop self recur result ls m = Raise e m' →
  is_Exception e = false.
Proof.
  induction ls as [|l ls IH]; simpl; intros m e m' Hrec; [done|].
  destruct (Flow.listener_round self recur result l m) as [[] m1|e1 m1|m1] eqn:E;
    try done.
  - apply IH. intros l' v m2 e2 m3 Hl'. apply Hrec. by right.
  - intros [= <- _]. eapply listener_round_Raise; [|done].
    intros v m2 e2 m3. apply Hrec. by left.
Qed.

(** No [Exception] leaves [_execute_listeners]. *)
Lemma execute_listeners_Raise fuel : ∀ trigger_method result m e m',
  Flow._execute_listeners fuel self trigger_method result m = Raise e m' →
  is_Exception e = false.
Proof.
  induction fuel as [|fuel IH]; simpl; intros t result m e m'; [done|].
  destruct (_listeners (cls self) !! t) as [ls|]; [|done].
  destruct (Flow.listener_loop self (Flow._execute_listeners fuel self) result ls m)
    as [c m1|e1 m1|m1] eqn:E; simpl; try done.
  intros [= <- _]. eapply listener_loop_Raise; [|done].
  intros l v m2 e2 m3 _. apply IH.
Qed.

Lemma start_loop_Raise fuel starts : ∀ m e m',
  Flow.start_loop fuel self starts m = Raise e m' →
  is_Exception e = true →
  ∃ s m1, s ∈ starts ∧ Flow.call_method self s None m1 = Raise e m'.
Proof.
  induction starts as [|s starts IH]; simpl; intros m e m'; [done|].
  destruct (Flow.call_method self s None m) as [v m1|e1 m1|m1] eqn:Ecall; simpl.
  - destruct (Flow._execute_listeners fuel self s v m1) as [[] m2|e2 m2|m2] eqn:Eexec;
      simpl; try done.
    + intros H He. destruct (IH _ _ _ H He) as (s' & m3 & Hs' & Hcall).
      exists s', m3. split; [by right|done].
    + intros [= <- _] He. apply execute_listeners_Raise in Eexec. congruence.
  - intros [= <- <-] _. exists s, m. split; [by left|done].
  - done.
Qed.

End Errors.

(** ** Two flows that agree on the steps a run reaches *)

Section Agree.

Variables (self self' : flow) (Q : string → Prop).
Hypothesis HQ : agree_on Q self self'.
Hypothesis Q_closed : closed_under_listeners self Q.

Lemma call_method_agree name arg m :
  Q name → Flow.call_method self name arg m = Flow.call_method self' name arg m.
Proof. intros Hn. unfold Flow.call_method. by destruct (HQ name Hn) as [-> _]. Qed.

Lemma listener_round_agree recur recur' result listener m :
  Q listener →
  (∀ v m1, recur listener v m1 = recur' listener v m1) →
  Flow.listener_round self recur result listener m =
  Flow.listener_round self' recur' result listener m.
Proof.
  intros Hl Hrec. unfold Flow.listener_round. rewrite call_method_agree by done.
  destruct (Flow.call_method self' listener (Some result) m); simpl; [|done..].
  by rewrite Hrec.
Qed.

Lemma listener_loop_agree recur recur' result ls : ∀ m,
  Forall Q ls →
  (∀ l v m1, l ∈ ls → recur l v m1 = recur' l v m1) →
  Flow.listener_loop self recur result ls m =
  Flow.listener_loop self' recur' result ls m.
Proof.
  induction ls as [|l ls IH]; simpl; intros m Hls Hrec; [done|].
  apply Forall_cons in Hls as [Hl Hls].
  rewrite (listener_round_agree recur recur') by (try done; intros; apply Hrec; by left).
  destruct (Flow.listener_round self' recur' result l m) as [[] m1|e m1|m1]; try done.
  apply IH; [done|]. intros l' v m2 Hl'. apply Hrec. by right.
Qed.

Lemma execute_listeners_agree fuel : ∀ trigger_method result m,
  Q trigger_method →
  Flow._execute_listeners fuel self trigger_method result m =
  Flow._execute_listeners fuel self' trigger_method result m.
Proof.
  induction fuel as [|fuel IH]; simpl; intros t result m Ht; [done|].
  destruct (HQ t Ht) as [_ <-].
  destruct (_listeners (cls self) !! t) as [ls|] eqn:Els; [|done].
  rewrite (listener_loop_agree _ (Flow._execute_listeners fuel self')); [done| |].
  - apply Forall_forall. intros l Hl. by eapply Q_closed.
  - intros l v m1 Hl. apply IH. by eapply Q_closed.
Qed.

Lemma start_loop_agree fuel starts : ∀ m,
  Forall Q starts →
  Flow.start_loop fuel self starts m = Flow.start_loop fuel self' starts m.
Proof.
  induction starts as [|s starts IH]; simpl; intros m Hs; [done|].
  apply Forall_cons in Hs as [Hs Hstarts].
  rewrite call_method_agree by done.
  destruct (Flow.call_method self' s None m) as [v m1|e m1|m1]; simpl; [|done..].
  rewrite execute_listeners_agree by done.
  destruct (Flow._execute_listeners fuel self' s v m1) as [[] m2|e m2|m2]; simpl;
    [|done..].
  by apply IH.
Qed.

Lemma run_agree fuel m :
  _start_methods (cls self) = _start_methods (cls self') →
  Forall Q (_start_methods (cls self)) →
  Flow.run fuel self m = Flow.run fuel self' m.
Proof.
  intros Hstarts Hs. unfold Flow.run. rewrite <- Hstarts.
  destruct (_start_methods (cls self)); [done|]. by apply start_loop_agree.
Qed.

End Agree.

(** ** Termination on a graph without cycle *)

Section Returns.

Variables (self : flow) (rank : string → nat).
Hypothesis Hranked : ranked self rank.
Hypothesis Hexc : raise_only_Exception self.

Lemma call_method_Raise_Exception name arg m e m' :
  Flow.call_method self name arg m = Raise e m' → is_Exception e = true.
Proof.
  destruct (call_method_cases self name arg m) as [[_ ->]|(f & h' & r & Hf & Hr & ->)].
  - by intros [= <- _].
  - destruct r as [e1|v]; [|done]. intros [= <- _]. by eapply Hexc.
Qed.

Lemma call_method_not_OutOfFuel name arg m m' :
  Flow.call_method self name arg m ≠ OutOfFuel m'.
Proof.
  destruct (call_method_cases self name arg m) as [[_ ->]|(f & h' & r & _ & _ & ->)];
    [done|by destruct r].
Qed.

Lemma listener_round_returns recur result listener m :
  (∀ v m1, ∃ m2, recur listener v m1 = Ret tt m2) →
  ∃ c m', Flow.listener_round self recur result listener m = Ret c m'.
Proof.
  intros Hrec. unfold Flow.listener_round.
  destruct (Flow.call_method self listener (Some result) m) as [v m1|e m1|m1] eqn:E;
    simpl.
  - destruct (Hrec v m1) as [m2 ->]. simpl. by eexists _, _.
  - rewrite (call_method_Raise_Exception _ _ _ _ _ E). by eexists _, _.
  - by apply call_method_not_OutOfFuel in E.
Qed.

Lemma listener_loop_returns recur result ls : ∀ m,
  (∀ l v m1, l ∈ ls → ∃ m2, recur l v m1 = Ret tt m2) →
  ∃ c m', Flow.listener_loop self recur result ls m = Ret c m'.
Proof.
  induction ls as [|l ls IH]; simpl; intros m Hrec; [by eexists _, _|].
  destruct (listener_round_returns recur result l m) as (c & m1 & ->).
  { intros v m1. apply Hrec. by left. }
  destruct c; [|by eexists _, _].
  apply IH. intros l' v m2 Hl'. apply Hrec. by right.
Qed.

(** A budget above the rank of the trigger is enough. *)
Lemma execute_listeners_returns fuel : ∀ trigger_method result m,
  rank trigger_method < fuel →
  ∃ m', Flow._execute_listeners fuel self trigger_method result m = Ret tt m'.
Proof.
  induction fuel as [|fuel IH]; simpl; intros t result m Hlt; [lia|].
  destruct (_listeners (cls self) !! t) as [ls|] eqn:Els; [|by eexists].
  destruct (listener_loop_returns (Flow._execute_listeners fuel self) result ls m)
    as (c & m' & ->); [|by eexists].
  intros l v m1 Hl. apply IH. specialize (Hranked t ls l Els Hl). lia.
Qed.

Hypothesis Hentries : entry_points_return self.

Lemma start_loop_returns fuel starts : ∀ m,
  starts ⊆ _start_methods (cls self) →
  Forall (λ s, rank s < fuel) starts →
  ∃ m', Flow.start_loop fuel self starts m = Ret tt m'.
Proof.
  induction starts as [|s starts IH]; simpl; intros m Hsub Hlt; [by eexists|].
  apply Forall_cons in Hlt as [Hs Hlt].
  destruct (Hentries s) as (f & Hf & Hret); [apply Hsub; by left|].
  destruct (Hret (m_heap m)) as (h' & v & Hcall).
  unfold Flow.call_method. rewrite Hf, Hcall. simpl.
  destruct (execute_listeners_returns fuel s v
              {| m_heap := h'; m_log := m_log m ++ [Invoke s None] |} Hs) as [m2 ->].
  simpl. apply IH; [|done]. intros x Hx. apply Hsub. by right.
Qed.

(** [run] returns when given a budget above the rank of every start
    method. *)
Lemma run_returns :
  _start_methods (cls self) ≠ [] →
  ∃ fuel, ∀ m, ∃ m', Flow.run fuel self m = Ret tt m'.
Proof.
  intros Hne. exists (S (max_list (rank <$> _start_methods (cls self)))).
  intros m. unfold Flow.run.
  destruct (_start_methods (cls self)) as [|s starts] eqn:E; [done|].
  rewrite <- E. apply start_loop_returns; [done|].
  apply Forall_forall. intros x Hx.
  assert (rank x ≤ max_list (rank <$> _start_methods (cls self))); [|lia].
  apply max_list_elem_of_le, list_elem_of_fmap. by exists x.
Qed.

End Returns.

(** ** The shape of a run that returns *)

Section Shape.

Variable self : flow.

Lemma closed_True : closed_under_listeners self (λ _, True).
Proof. by intros ?. Qed.

Lemma listener_loop_app recur result ls1 ls2 m :
  Flow.listener_loop self recur result (ls1 ++ ls2) m =
  match Flow.listener_loop self recur result ls1 m with
  | Ret Normal m1 => Flow.listener_loop self recur result ls2 m1
  | r => r
  end.
Proof.
  revert m. induction ls1 as [|l ls1 IH]; simpl; intros m; [done|].
  by destruct (Flow.listener_round self recur result l m) as [[] m1|e m1|m1].
Qed.

Lemma start_loop_segments fuel starts : ∀ m m',
  Flow.start_loop fuel self starts m = Ret tt m' →
  ∃ segs, Forall2 (entry_segment fuel self) starts segs ∧
          m_log m' = m_log m ++ concat segs.
Proof.
  induction starts as [|s starts IH]; simpl; intros m m' H.
  - injection H as <-. exists []. split; [constructor|by rewrite app_nil_r].
  - destruct (Flow.call_method self s None m) as [v m1|e m1|m1] eqn:Ecall;
      simpl in H; try done.
    destruct (Flow._execute_listeners fuel self s v m1) as [[] m2|e m2|m2] eqn:Eexec;
      simpl in H; try done.
    destruct (IH _ _ H) as (segs & Hsegs & Hlog).
    pose proof (execute_listeners_log self (λ _, True) closed_True fuel s v m1 I)
      as (evs & Hevs & Hall).
    rewrite Eexec in Hevs. simpl in Hevs.
    exists ((Invoke s None :: evs) :: segs). split.
    + constructor; [|done]. by exists m, v, m1, m2, evs.
    + rewrite Hlog, Hevs. simpl.
      destruct (call_method_cases self s None m) as [[_ Hc]|(f & h' & r & _ & _ & Hc)];
        rewrite Hc in Ecall; [done|].
      destruct r; [done|]. injection Ecall as _ <-. simpl.
      by rewrite <- !app_assoc.
Qed.

End Shape.

(** ** The graph builder, as specified *)

(** C7.  [FlowMeta.__new__] collects as start methods exactly the names of
    the class dict tagged as start methods, in declaration order; under each
    trigger it lists the listeners that declare that trigger, in the order
    in which the listeners are declared in the class dict, whatever the
    order in which a listener lists its triggers, and a trigger that no
    listener declares is no key.  A listener stands once per listing of the
    trigger: once, when it lists no trigger twice. *)
Theorem new_collects_in_declaration_order bases dct c :
  FlowMeta.__new__ bases dct = inr c →
  _start_methods c = spec_entryPoints dct
  ∧ (∀ t, _listeners c !! t =
          match declaring t dct with [] => None | l :: ls => Some (l :: ls) end)
  ∧ (Forall (λ kv, NoDup (trigger_names kv.2)) dct →
     ∀ t, listeners_at (_listeners c) t = spec_listenersByTrigger t dct).
Proof.
  intros Hnew. destruct (new_graph _ _ _ Hnew) as (_ & _ & _ & Hstart & Hls).
  split; [done|]. split; [done|].
  intros Hnd t. unfold listeners_at. rewrite Hls, <- declaring_once by done.
  by destruct (declaring t dct).
Qed.

Lemma new_collects_in_declaration_order_witness :
  let c := Scenario.class_of [] Scenario.order_body in
  _start_methods c = ["first"; "second"]
  ∧ _listeners c !! "first" = Some ["both"; "other"]
  ∧ _listeners c !! "second" = Some ["both"]
  ∧ _listeners c !! "both" = None
  ∧ listeners_at (_listeners c) "first" = ["both"; "other"].
Proof.
  intros c.
  destruct (new_collects_in_declaration_order []
              (class_namespace Scenario.order_body) c) as (Hstart & Hls & Hspec).
  { vm_compute. reflexivity. }
  rewrite Hstart, !Hls, Hspec.
  - repeat split; vm_compute; reflexivity.
  - vm_compute. repeat constructor; set_solver.
Defined.

(** C8, as the code has it.  A class body that binds a name twice is no
    error: the namespace keeps one binding per name, at the place of the
    first and with the value of the last, and [FlowMeta.__new__] builds the
    graph from it, as long as every callable trigger has a name. *)
Theorem duplicate_name_rebinds bases class_body :
  Forall (λ kv, triggers_named kv.2) class_body →
  ∃ c, class_statement bases class_body = inr c
       ∧ (cls_dct c).*1 = first_occurrences class_body.*1
       ∧ NoDup (cls_dct c).*1
       ∧ ∀ n, dict_get n (cls_dct c) = dict_get n (reverse class_body).
Proof.
  intros Hnamed. unfold class_statement.
  destruct (new_succeeds bases (class_namespace class_body)) as [c Hc].
  { apply Forall_forall. intros [k a] Hin.
    apply class_namespace_subseteq in Hin.
    by apply (proj1 (Forall_forall _ _) Hnamed (k, a)). }
  exists c. split; [done|].
  destruct (new_graph _ _ _ Hc) as (-> & _).
  apply class_namespace_dict.
Qed.

Lemma duplicate_name_rebinds_witness :
  ∃ c, class_statement [] Scenario.duplicate_body = inr c
       ∧ (cls_dct c).*1 = ["a"; "b"]
       ∧ NoDup (cls_dct c).*1
       ∧ ∀ n, dict_get n (cls_dct c) = dict_get n (reverse Scenario.duplicate_body).
Proof.
  apply (duplicate_name_rebinds [] Scenario.duplicate_body).
  repeat constructor; intros ts [= <-]; set_solver.
Defined.

(** C8, as stated, fails: the body binds [a] twice and the class statement
    returns a class, with [a] once among its start methods. *)
Lemma duplicate_name_no_error :
  ¬ NoDup Scenario.duplicate_body.*1
  ∧ (∀ e, class_statement [] Scenario.duplicate_body ≠ inl e)
  ∧ _start_methods (Scenario.class_of [] Scenario.duplicate_body) = ["a"]
  ∧ class_statement [] Scenario.duplicate_body
    = inr (Scenario.class_of [] Scenario.duplicate_body).
Proof.
  split; [|split; [|split]].
  - intros Hnd. apply NoDup_cons in Hnd as [Ha _]. apply Ha. set_solver.
  - intros e. vm_compute. discriminate.
  - vm_compute. reflexivity.
  - vm_compute. reflexivity.
Qed.

(** Every name of the graph is a name of the class dict: a start method
    is tagged as one there, a listener lists its trigger there. *)
Lemma graph_names_declared bases dct c :
  FlowMeta.__new__ bases dct = inr c →
  (∀ s, s ∈ _start_methods c → ∃ a, (s, a) ∈ dct ∧ has_is_start_method a = true)
  ∧ (∀ t ls l, _listeners c !! t = Some ls → l ∈ ls →
       ∃ a, (l, a) ∈ dct ∧ t ∈ trigger_names a).
Proof.
  intros Hnew. destruct (new_graph _ _ _ Hnew) as (_ & _ & _ & Hstart & Hls). split.
  - intros s. rewrite Hstart. apply elem_of_spec_entryPoints.
  - intros t ls l. rewrite Hls. intros Hdecl Hl. apply elem_of_declaring.
    destruct (declaring t dct); [done|]. by injection Hdecl as <-.
Qed.

Lemma getattr_dir c n v : Flow.getattr c n = Some v → n ∈ Flow.dir c.
Proof.
  unfold Flow.getattr, Flow.dir. generalize (cls_dct c :: cls_bases c).
  intros nss. induction nss as [|ns nss IH]; simpl; [done|].
  destruct (dict_get n ns) as [v'|] eqn:E.
  - intros _. apply elem_of_app. left.
    apply dict_get_Some_elem_of in E. apply list_elem_of_In, in_map_iff.
    exists (n, v'). split; [done|]. by apply list_elem_of_In.
  - intros H. apply elem_of_app. right. by apply IH.
Qed.

(** The method table binds the callable attributes the instance can
    reach, apart from the names that begin with two underscores. *)
Lemma collect_methods_lookup c n :
  Flow.collect_methods c !! n =
  if String.prefix "__" n then None else Flow.bound_method c n.
Proof.
  unfold Flow.collect_methods.
  assert (∀ (names : list string) (acc : gmap string method),
    foldl (λ methods method_name,
             match Flow.bound_method c method_name with
             | Some f => if String.prefix "__" method_name then methods
                         else <[method_name := f]> methods
             | None => methods
             end) acc names !! n =
    if decide (n ∈ names) then
      match Flow.bound_method c n with
      | Some f => if String.prefix "__" n then acc !! n else Some f
      | None => acc !! n
      end
    else acc !! n) as Hfold.
  { induction names as [|k names IH]; intros acc; simpl; [done|].
    rewrite IH. clear IH.
    assert (match Flow.bound_method c k with
            | Some f => if String.prefix "__" k then acc else <[k := f]> acc
            | None => acc
            end !! n =
            if decide (k = n) then
              match Flow.bound_method c n with
              | Some f => if String.prefix "__" n then acc !! n else Some f
              | None => acc !! n
              end
            else acc !! n) as ->.
    { destruct (decide (k = n)) as [->|Hne].
      - destruct (Flow.bound_method c n); [|done].
        destruct (String.prefix "__" n); [done|]. by rewrite lookup_insert_eq.
      - destruct (Flow.bound_method c k); [|done].
        destruct (String.prefix "__" k); [done|]. by rewrite lookup_insert_ne. }
    destruct (decide (k = n)) as [->|Hne].
    - rewrite (decide_True (P := n ∈ n :: names)) by left.
      destruct (decide (n ∈ names)); [|done].
      destruct (Flow.bound_method c n); [|done].
      by destruct (String.prefix "__" n).
    - destruct (decide (n ∈ names)).
      + by rewrite (decide_True (P := n ∈ k :: names)) by (by right).
      + rewrite (decide_False (P := n ∈ k :: names)); [done|].
        intros [?|?]%elem_of_cons; congruence. }
  rewrite Hfold, lookup_empty.
  destruct (decide (n ∈ Flow.dir c)) as [Hin|Hnin].
  - destruct (Flow.bound_method c n); by destruct (String.prefix "__" n).
  - unfold Flow.bound_method. destruct (Flow.getattr c n) as [v|] eqn:E.
    + by apply getattr_dir in E.
    + by destruct (String.prefix "__" n).
Qed.

(** C10.  The graph of a class is read off its own dict alone: it is the
    same whatever the bases.  A name that the class body does not bind, as
    the name of an entry point or of a listener that is only inherited, is
    no start method of the class and no listener under any trigger, and no
    run of an instance of the class calls it. *)
Theorem inherited_steps_not_in_graph bases dct c name :
  FlowMeta.__new__ bases dct = inr c →
  name ∉ dct.*1 →
  (∀ bases', ∃ c', FlowMeta.__new__ bases' dct = inr c'
                   ∧ _start_methods c' = _start_methods c
                   ∧ _listeners c' = _listeners c)
  ∧ (name ∉ _start_methods c)
  ∧ (∀ t ls, _listeners c !! t = Some ls → name ∉ ls)
  ∧ ∀ self fuel m, cls self = c →
      ∃ evs, m_log (machine_of (Flow.run fuel self m)) = m_log m ++ evs
             ∧ ∀ arg, Invoke name arg ∉ evs.
Proof.
  intros Hnew Hname.
  destruct (graph_names_declared _ _ _ Hnew) as [Hstart Hls].
  assert (∀ n a, (n, a) ∈ dct → n ∈ dct.*1) as Hkey.
  { intros n a Hin. apply list_elem_of_fmap. by exists (n, a). }
  split; [|split; [|split]].
  - intros bases'. revert Hnew. unfold FlowMeta.__new__.
    destruct (FlowMeta.collect dct [] ∅) as [e|[sm ls]]; [done|].
    intros [= <-]. by eexists.
  - intros Hin. destruct (Hstart _ Hin) as (a & Ha & _). eauto.
  - intros t ls Hl Hin. destruct (Hls _ _ _ Hl Hin) as (a & Ha & _). eauto.
  - intros self fuel m <-.
    destruct (run_log self (λ n, n ∈ dct.*1)) with (fuel := fuel) (m := m)
      as (evs & Hlog & Hevs).
    + intros t ls l _ Hl Hin. destruct (Hls _ _ _ Hl Hin) as (a & Ha & _). eauto.
    + apply Forall_forall. intros s Hs. destruct (Hstart _ Hs) as (a & Ha & _). eauto.
    + exists evs. split; [done|]. intros arg Hin.
      apply (proj1 (Forall_forall _ _) Hevs) in Hin. done.
Qed.

Lemma inherited_steps_not_in_graph_witness :
  let self := Scenario.child_flow in
  is_Some (_methods self !! "load")
  ∧ ("load" ∉ _start_methods (cls self))
  ∧ (∀ t ls, _listeners (cls self) !! t = Some ls → "load" ∉ ls)
  ∧ ∃ evs, m_log (machine_of (Flow.run 3 self Scenario.m0)) = m_log Scenario.m0 ++ evs
           ∧ ∀ arg, Invoke "load" arg ∉ evs.
Proof.
  intros self.
  destruct (inherited_steps_not_in_graph
              [class_namespace Scenario.parent_body]
              (class_namespace Scenario.child_body) (cls self) "load")
    as (_ & Hstart & Hls & Hrun).
  { vm_compute. reflexivity. }
  { vm_compute. intros [[=]|Hin%elem_of_nil]%elem_of_cons. done. }
  split; [vm_compute; eauto|]. split; [done|]. split; [done|].
  by apply Hrun.
Defined.

(** ** The initial state *)

(** A location past the end of the heap is not allocated. *)
Lemma alloc_fresh (h : heap) (o : pyobj) :
  ¬ allocated h (alloc h o).2 ∧ (alloc h o).1 !! (alloc h o).2 = Some o
  ∧ ∀ l, allocated h l → (alloc h o).1 !! l = h !! l.
Proof.
  unfold allocated, alloc. simpl. split; [|split].
  - rewrite lookup_ge_None_2 by lia. by intros [? ?].
  - rewrite lookup_app_r by lia. by rewrite Nat.sub_diag.
  - intros l [o' Hl]. rewrite lookup_app_l; [done|]. by eapply lookup_lt_Some.
Qed.

(** C9.  [_create_initial_state] returns a new empty dict when
    [initial_state] is [None]; the result of calling [initial_state] when it
    is a class, which is a new instance whenever the call returns; and in
    every other case the value of [initial_state] itself, with the heap
    untouched, so that the state of the instance [__init__] builds is the
    very object that was supplied, not a copy of it. *)
Theorem create_initial_state_cases c h :
  (Flow.initial_state c = VNone →
     Flow._create_initial_state c h = (h ++ [empty_dict], inr (VRef (length h)))
     ∧ ¬ allocated h (length h))
  ∧ (∀ name init, Flow.initial_state c = VType name init →
       Flow._create_initial_state c h = call_type name init h
       ∧ ∀ fields, init = inr fields →
           Flow._create_initial_state c h =
             (h ++ [{| obj_type := name; obj_fields := fields |}], inr (VRef (length h)))
           ∧ ¬ allocated h (length h))
  ∧ (∀ v, Flow.initial_state c = v → v ≠ VNone → (∀ name init, v ≠ VType name init) →
       Flow._create_initial_state c h = (h, inr v)
       ∧ ∃ self, Flow.__init__ c h = (h, inr self) ∧ cls self = c ∧ _state self = v).
Proof.
  unfold Flow.__init__, Flow._create_initial_state.
  split; [|split].
  - intros ->. split; [done|]. apply (alloc_fresh h empty_dict).
  - intros name init ->. split; [done|]. intros fields ->. split; [done|].
    apply (alloc_fresh h {| obj_type := name; obj_fields := fields |}).
  - intros v -> Hnone Htype.
    destruct v as [| | | | |name init];
      [congruence|split; [done|by eexists]..|by destruct (Htype name init)].
Qed.

Lemma create_initial_state_cases_witness :
  Flow._create_initial_state (Scenario.class_of [] Scenario.chain_body) []
    = ([empty_dict], inr (VRef 0))
  ∧ Flow._create_initial_state (Scenario.class_of [] Scenario.typed_state_body) [empty_dict]
    = ([empty_dict; {| obj_type := "Counter"; obj_fields := [("count", VInt 0)] |}],
       inr (VRef 1))
  ∧ Flow._create_initial_state (Scenario.class_of [] Scenario.shared_state_body) [empty_dict]
    = ([empty_dict], inr (VRef 0))
  ∧ ∃ self, Flow.__init__ (Scenario.class_of [] Scenario.shared_state_body) [empty_dict]
            = ([empty_dict], inr self) ∧ _state self = VRef 0.
Proof.
  split; [|split; [|split]].
  - destruct (create_initial_state_cases (Scenario.class_of [] Scenario.chain_body) [])
      as (H & _ & _).
    apply H. vm_compute. reflexivity.
  - destruct (create_initial_state_cases
                (Scenario.class_of [] Scenario.typed_state_body) [empty_dict])
      as (_ & H & _).
    destruct (H "Counter" (inr [("count", VInt 0)])) as [_ H'];
      [vm_compute; reflexivity|].
    by apply H'.
  - destruct (create_initial_state_cases
                (Scenario.class_of [] Scenario.shared_state_body) [empty_dict])
      as (_ & _ & H).
    apply (H (VRef 0)); [vm_compute; reflexivity|discriminate|discriminate].
  - destruct (create_initial_state_cases
                (Scenario.class_of [] Scenario.shared_state_body) [empty_dict])
      as (_ & _ & H).
    destruct (H (VRef 0)) as (_ & self & Hinit & _ & Hstate);
      [vm_compute; reflexivity|discriminate|discriminate|].
    by exists self.
Defined.

(** ** The execution engine, as specified *)

Lemma machine_of_bind_Ret {A B} (c : res A) (b : B) :
  machine_of (bind c (λ _ m', Ret b m')) = machine_of c.
Proof. by destruct c. Qed.

Lemma extends_with_bind {A B} P m (c : res A) (k : A → machine → res B) :
  extends_with P m (machine_of c) →
  (∀ a m1, extends_with P m1 (machine_of (k a m1))) →
  extends_with P m (machine_of (bind c k)).
Proof.
  intros Hc Hk. destruct c as [a m1|e m1|m1]; simpl in *; [|done..].
  by eapply extends_with_trans.
Qed.

Lemma extends_with_try {A} P m (c : res A) handler :
  extends_with P m (machine_of c) →
  (∀ e m1, extends_with P m1 (machine_of (handler e m1))) →
  extends_with P m (machine_of (try_except_Exception c handler)).
Proof.
  intros Hc Hh. destruct c as [a m1|e m1|m1]; simpl in *; [done| |done].
  destruct (is_Exception e); [|done]. by eapply extends_with_trans.
Qed.

Lemma extends_with_log P m m' :
  extends_with P m m' → ∃ evs, m_log m' = m_log m ++ evs.
Proof. intros (evs & H & _). by exists evs. Qed.

Section Calls.

Variable self : flow.

Lemma execute_listeners_extends fuel t result m :
  extends_with any_event m (machine_of (Flow._execute_listeners fuel self t result m)).
Proof.
  eapply extends_with_mono;
    [|by apply (execute_listeners_log self (λ _, True) (closed_True self))].
  done.
Qed.

Lemma listener_loop_extends fuel result ls m :
  extends_with any_event m
    (machine_of (Flow.listener_loop self (Flow._execute_listeners fuel self) result ls m)).
Proof.
  eapply extends_with_mono; [|apply (listener_loop_log self (λ _, True))].
  - done.
  - by apply Forall_forall.
  - intros l v m1 _. by apply (execute_listeners_log self (λ _, True) (closed_True self)).
Qed.

(** A round whose listener is in the method table logs its call first,
    with the result it was given. *)
Lemma listener_round_calls fuel result listener m :
  is_Some (_methods self !! listener) →
  ∃ evs, m_log (machine_of (Flow.listener_round self (Flow._execute_listeners fuel self)
                              result listener m))
         = m_log m ++ Invoke listener (Some result) :: evs.
Proof.
  intros [f Hf].
  assert (∃ m1, m_log m1 = m_log m ++ [Invoke listener (Some result)] ∧
            extends_with any_event m1
              (machine_of (Flow.listener_round self (Flow._execute_listeners fuel self)
                             result listener m))) as (m1 & Hm1 & Hext).
  { unfold Flow.listener_round, Flow.call_method. rewrite Hf.
    destruct (f (m_heap m) (Some result)) as [h' [e|v]];
      eexists {| m_heap := h'; m_log := m_log m ++ [Invoke listener (Some result)] |};
      (split; [done|]).
    - simpl. destruct (is_Exception e); simpl; [by apply extends_with_emit|].
      apply extends_with_refl.
    - apply extends_with_try; [|by intros; apply extends_with_emit].
      simpl. apply extends_with_bind; [apply execute_listeners_extends|].
      intros. apply extends_with_refl. }
  destruct (extends_with_log _ _ _ Hext) as [evs Hevs]. exists evs.
  by rewrite Hevs, Hm1, <- app_assoc.
Qed.

(** The loop goes on from where its first round ends, if it goes on. *)
Lemma listener_loop_cons_extends fuel result listener ls m :
  extends_with any_event
    (machine_of (Flow.listener_round self (Flow._execute_listeners fuel self)
                   result listener m))
    (machine_of (Flow.listener_loop self (Flow._execute_listeners fuel self)
                   result (listener :: ls) m)).
Proof.
  simpl.
  destruct (Flow.listener_round self (Flow._execute_listeners fuel self) result listener m)
    as [[] m1|e m1|m1]; simpl; try apply extends_with_refl.
  apply listener_loop_extends.
Qed.

(** A round goes on from where the call of its listener ends. *)
Lemma listener_round_extends fuel result listener m v m1 :
  Flow.call_method self listener (Some result) m = Ret v m1 →
  extends_with any_event
    (machine_of (Flow._execute_listeners fuel self listener v m1))
    (machine_of (Flow.listener_round self (Flow._execute_listeners fuel self)
                   result listener m)).
Proof.
  intros Hcall. unfold Flow.listener_round. rewrite Hcall. simpl.
  destruct (Flow._execute_listeners fuel self listener v m1) as [[] m2|e m2|m2]; simpl;
    try apply extends_with_refl.
  destruct (is_Exception e); simpl; [by apply extends_with_emit|apply extends_with_refl].
Qed.

Lemma call_method_Ret_log name arg m v m1 :
  Flow.call_method self name arg m = Ret v m1 →
  m_log m1 = m_log m ++ [Invoke name arg].
Proof.
  destruct (call_method_cases self name arg m) as [[_ ->]|(f & h' & r & _ & _ & ->)];
    [done|]. destruct r; [done|]. by intros [= _ <-].
Qed.

Lemma start_loop_calls fuel s starts m :
  is_Some (_methods self !! s) →
  ∃ evs, m_log (machine_of (Flow.start_loop fuel self (s :: starts) m))
         = m_log m ++ Invoke s None :: evs.
Proof.
  intros [f Hf].
  assert (∃ m1, m_log m1 = m_log m ++ [Invoke s None] ∧
            extends_with any_event m1 (machine_of (Flow.start_loop fuel self (s :: starts) m)))
    as (m1 & Hm1 & Hext).
  { simpl. unfold Flow.call_method. rewrite Hf.
    destruct (f (m_heap m) None) as [h' [e|v]];
      eexists {| m_heap := h'; m_log := m_log m ++ [Invoke s None] |};
      (split; [done|]); simpl; [apply extends_with_refl|].
    apply extends_with_bind; [apply execute_listeners_extends|].
    intros _ m2. eapply extends_with_mono; [|apply (start_loop_log self (λ _, True))].
    - done.
    - apply closed_True.
    - by apply Forall_forall. }
  destruct (extends_with_log _ _ _ Hext) as [evs Hevs]. exists evs.
  by rewrite Hevs, Hm1, <- app_assoc.
Qed.

End Calls.

(** C1, on the scenario of the specification.  [x] is an entry point, [y]
    and [z] listen on it in that order, and [y] raises.  The run calls [x],
    calls [y] with the result of [x], prints the error and returns: the
    [return] of the handler leaves the loop over the listeners of [x], and
    [z] is not called. *)
Theorem failing_listener_ends_the_loop :
  let self := Scenario.siblings_flow in
  _start_methods (cls self) = ["x"]
  ∧ _listeners (cls self) !! "x" = Some ["y"; "z"]
  ∧ is_Some (_methods self !! "z")
  ∧ (∀ fuel,
       Flow.run (S fuel) self Scenario.m0 =
       Ret tt {| m_heap := [empty_dict];
                 m_log := [Invoke "x" None; Invoke "y" (Some (VInt 1));
                           Print "Error in method y: boom"] |})
  ∧ ∀ fuel arg, Invoke "z" arg ∉ m_log (machine_of (Flow.run fuel self Scenario.m0)).
Proof.
  intros self.
  assert (∀ fuel,
       Flow.run (S fuel) self Scenario.m0 =
       Ret tt {| m_heap := [empty_dict];
                 m_log := [Invoke "x" None; Invoke "y" (Some (VInt 1));
                           Print "Error in method y: boom"] |}) as Hrun.
  { intros fuel. vm_compute. reflexivity. }
  split; [vm_compute; reflexivity|]. split; [vm_compute; reflexivity|].
  split; [vm_compute; eauto|]. split; [done|].
  intros [|fuel] arg.
  - vm_compute. intros [[=]|Hin%elem_of_nil]%elem_of_cons. done.
  - rewrite Hrun. simpl. rewrite !elem_of_cons, elem_of_nil.
    intros [[=]|[[=]|[[=]|[]]]].
Qed.

(** C2, as stated, fails: the flow has entry points, the first of them
    raises, and the error leaves [run]. *)
Lemma entry_point_error_leaves_run :
  let self := Scenario.failing_entry_flow in
  _start_methods (cls self) = ["a"; "b"]
  ∧ ∀ fuel,
      Flow.run fuel self Scenario.m0 =
      Raise Scenario.boom {| m_heap := [empty_dict]; m_log := [Invoke "a" None] |}.
Proof.
  intros self. split; [vm_compute; reflexivity|]. intros fuel. vm_compute. reflexivity.
Qed.

(** C2, as the code has it.  No [Exception] leaves [_execute_listeners]:
    what a listener raises is caught in the call that invoked it.  An
    [Exception] that leaves [run] on a flow with an entry point was raised
    by the call of an entry point itself, which no handler surrounds. *)
Theorem listener_errors_stay_in_run self fuel :
  (∀ trigger_method result m e m',
     Flow._execute_listeners fuel self trigger_method result m = Raise e m' →
     is_Exception e = false)
  ∧ (∀ m e m',
       _start_methods (cls self) ≠ [] →
       Flow.run fuel self m = Raise e m' →
       is_Exception e = true →
       ∃ s m1, s ∈ _start_methods (cls self)
               ∧ Flow.call_method self s None m1 = Raise e m').
Proof.
  split; [apply execute_listeners_Raise|].
  intros m e m' Hne. unfold Flow.run.
  destruct (_start_methods (cls self)) as [|s starts] eqn:E; [done|].
  apply start_loop_Raise.
Qed.

Lemma listener_errors_stay_in_run_witness :
  let self := Scenario.failing_entry_flow in
  ∃ s m1, s ∈ _start_methods (cls self)
          ∧ Flow.call_method self s None m1 =
            Raise Scenario.boom {| m_heap := [empty_dict]; m_log := [Invoke "a" None] |}.
Proof.
  intros self.
  apply (proj2 (listener_errors_stay_in_run self 1) Scenario.m0).
  - vm_compute. discriminate.
  - vm_compute. reflexivity.
  - reflexivity.
Defined.

(** C3, as stated, fails: [a] and [b] are entry points in that order, [a]
    raises, and no run calls [b]. *)
Lemma entry_point_after_error_not_called :
  let self := Scenario.failing_entry_flow in
  _start_methods (cls self) = ["a"; "b"]
  ∧ ∀ fuel arg, Invoke "b" arg ∉ m_log (machine_of (Flow.run fuel self Scenario.m0)).
Proof.
  intros self. split; [vm_compute; reflexivity|]. intros fuel arg.
  replace (Flow.run fuel self Scenario.m0)
    with (Raise (A := unit) Scenario.boom
            {| m_heap := [empty_dict]; m_log := [Invoke "a" None] |})
    by (vm_compute; reflexivity).
  simpl. intros [[=]|[]%elem_of_nil]%elem_of_cons.
Qed.

Lemma spec_entryPoints_NoDup (dct : namespace) :
  NoDup dct.*1 → NoDup (spec_entryPoints dct).
Proof.
  induction dct as [|[k a] dct IH]; csimpl; [constructor|].
  intros [Hk Hnd]%NoDup_cons. rewrite spec_entryPoints_cons.
  destruct (has_is_start_method a); simpl; [|by apply IH].
  constructor; [|by apply IH]. intros (a' & Hin & _)%elem_of_spec_entryPoints.
  apply Hk, list_elem_of_fmap. by exists (k, a').
Qed.

(** C3, as the code has it.  A run that returns has called every entry
    point once as an entry point, in declaration order, and one after the
    other: its log is, entry point by entry point, the call of the entry
    point followed by all that the propagation of its result logs.  The
    start methods of a class are pairwise distinct.  A run returns, given a
    budget deep enough, when the entry points return, the graph has no
    cycle and no step raises past [Exception]. *)
Theorem run_calls_entry_points_in_order self :
  _start_methods (cls self) ≠ [] →
  (∀ fuel m m',
     Flow.run fuel self m = Ret tt m' →
     ∃ segs, Forall2 (entry_segment fuel self) (_start_methods (cls self)) segs
             ∧ m_log m' = m_log m ++ concat segs)
  ∧ (∀ bases class_body,
       class_statement bases class_body = inr (cls self) →
       NoDup (_start_methods (cls self)))
  ∧ (∀ rank,
       ranked self rank → raise_only_Exception self → entry_points_return self →
       ∃ fuel, ∀ m, ∃ m', Flow.run fuel self m = Ret tt m').
Proof.
  intros Hne. split; [|split].
  - intros fuel m m'. unfold Flow.run.
    destruct (_start_methods (cls self)) as [|s starts] eqn:E; [done|].
    apply start_loop_segments.
  - intros bases class_body Hc. unfold class_statement in Hc.
    destruct (new_graph _ _ _ Hc) as (_ & _ & _ & -> & _).
    apply spec_entryPoints_NoDup. apply class_namespace_dict.
  - intros rank Hrank Hexc Hret. by eapply run_returns.
Qed.

Lemma run_calls_entry_points_in_order_witness :
  let self := Scenario.two_entries_flow in
  (∃ segs, Forall2 (entry_segment 1 self) (_start_methods (cls self)) segs
           ∧ [Invoke "a" None; Invoke "b" None] = [] ++ concat segs)
  ∧ NoDup (_start_methods (cls self))
  ∧ ∃ fuel, ∀ m, ∃ m', Flow.run fuel self m = Ret tt m'.
Proof.
  intros self.
  destruct (run_calls_entry_points_in_order self) as (Hsegs & Hnd & Hret).
  { vm_compute. discriminate. }
  split; [|split].
  - apply (Hsegs 1 Scenario.m0
             {| m_heap := [empty_dict]; m_log := [Invoke "a" None; Invoke "b" None] |}).
    vm_compute. reflexivity.
  - apply (Hnd [] Scenario.two_entries_body). vm_compute. reflexivity.
  - assert (_methods self =
            <["a" := Scenario.returns (VInt 1)]> {["b" := Scenario.returns (VInt 2)]})
      as Hmethods by (vm_compute; reflexivity).
    apply (Hret (λ _, 0)).
    + intros t ls l Hl. vm_compute in Hl. discriminate.
    + intros name f h arg h' e. rewrite Hmethods.
      intros [[_ <-]|[_ [_ <-]%lookup_singleton_Some]]%lookup_insert_Some; discriminate.
    + intros s Hs. change (_start_methods (cls self)) with ["a"; "b"] in Hs.
      rewrite Hmethods.
      apply elem_of_cons in Hs as [->|Hs]; [|apply list_elem_of_singleton in Hs as ->].
      * eexists. split; [reflexivity|]. intros h. by eexists _, _.
      * eexists. split; [reflexivity|]. intros h. by eexists _, _.
Defined.

Lemma execute_listeners_S fuel self trigger_method result m :
  Flow._execute_listeners (S fuel) self trigger_method result m =
  match _listeners (cls self) !! trigger_method with
  | None => Ret tt m
  | Some ls =>
      bind (Flow.listener_loop self (Flow._execute_listeners fuel self) result ls m)
           (λ _ m', Ret tt m')
  end.
Proof. reflexivity. Qed.

(** C4.  Let [b] listen on [a] and [c] on [b].  When the result of [a] is
    propagated, the listeners of [a] before [b] complete, [b] returns
    [result_b], and the listeners of [b] before [c] complete, then [c] is
    called with [result_b], the result of [b], after the call of [b] with
    the result of [a]. *)
Theorem listener_receives_result_of_its_trigger
    self fuel a b c pre post pre' post' result_a result_b m m1 m2 m3 :
  _listeners (cls self) !! a = Some (pre ++ b :: post) →
  Flow.listener_loop self (Flow._execute_listeners (S fuel) self) result_a pre m
    = Ret Normal m1 →
  Flow.call_method self b (Some result_a) m1 = Ret result_b m2 →
  _listeners (cls self) !! b = Some (pre' ++ c :: post') →
  Flow.listener_loop self (Flow._execute_listeners fuel self) result_b pre' m2
    = Ret Normal m3 →
  is_Some (_methods self !! c) →
  ∃ before between after,
    m_log (machine_of (Flow._execute_listeners (S (S fuel)) self a result_a m))
    = m_log m ++ before ++ Invoke b (Some result_a) :: between
        ++ Invoke c (Some result_b) :: after.
Proof.
  intros Ha Hpre Hb Hlb Hpre' Hc.
  pose proof (listener_loop_extends self (S fuel) result_a pre m) as Hm1.
  rewrite Hpre in Hm1. apply extends_with_log in Hm1 as [before Hm1]. simpl in Hm1.
  pose proof (listener_loop_extends self fuel result_b pre' m2) as Hm3.
  rewrite Hpre' in Hm3. apply extends_with_log in Hm3 as [between Hm3]. simpl in Hm3.
  pose proof (call_method_Ret_log self _ _ _ _ _ Hb) as Hm2.
  destruct (listener_round_calls self fuel result_b c m3 Hc) as [ev1 Hround_c].
  pose proof (listener_loop_cons_extends self fuel result_b c post' m3) as Hloop_c.
  apply extends_with_log in Hloop_c as [ev2 Hloop_c].
  assert (Flow._execute_listeners (S fuel) self b result_b m2 =
          bind (Flow.listener_loop self (Flow._execute_listeners fuel self) result_b
                  (c :: post') m3) (λ _ m', Ret tt m')) as Hexec_b.
  { rewrite execute_listeners_S, Hlb, listener_loop_app, Hpre'. done. }
  pose proof (listener_round_extends self (S fuel) result_a b m1 result_b m2 Hb)
    as Hround_b.
  apply extends_with_log in Hround_b as [ev3 Hround_b].
  pose proof (listener_loop_cons_extends self (S fuel) result_a b post m1) as Hloop_b.
  apply extends_with_log in Hloop_b as [ev4 Hloop_b].
  exists before, between, (ev1 ++ ev2 ++ ev3 ++ ev4).
  rewrite execute_listeners_S, Ha, machine_of_bind_Ret, listener_loop_app, Hpre.
  rewrite Hloop_b, Hround_b, Hexec_b, machine_of_bind_Ret, Hloop_c, Hround_c.
  rewrite Hm3, Hm2, Hm1. by rewrite <- !app_assoc.
Qed.

Lemma listener_receives_result_of_its_trigger_witness :
  let self := Scenario.chain_flow in
  ∃ before between after,
    m_log (machine_of (Flow._execute_listeners 2 self "fetch" (VInt 10)
                         {| m_heap := [empty_dict]; m_log := [Invoke "fetch" None] |}))
    = [Invoke "fetch" None] ++ before ++ Invoke "double" (Some (VInt 10)) :: between
        ++ Invoke "report" (Some (VInt 20)) :: after.
Proof.
  intros self.
  apply (listener_receives_result_of_its_trigger self 0 "fetch" "double" "report"
           [] [] [] [] (VInt 10) (VInt 20)
           {| m_heap := [empty_dict]; m_log := [Invoke "fetch" None] |}
           {| m_heap := [empty_dict]; m_log := [Invoke "fetch" None] |}
           {| m_heap := [empty_dict];
              m_log := [Invoke "fetch" None; Invoke "double" (Some (VInt 10))] |}
           {| m_heap := [empty_dict];
              m_log := [Invoke "fetch" None; Invoke "double" (Some (VInt 10))] |}).
  - vm_compute. reflexivity.
  - reflexivity.
  - vm_compute. reflexivity.
  - vm_compute. reflexivity.
  - reflexivity.
  - vm_compute. eauto.
Defined.

(** C5.  With no start method, [run] raises the [ValueError] at once: the
    machine is as it was, nothing was called.  With a start method the check
    passes: [run] is the loop over the start methods, it does not end in
    that error on the untouched machine, and when the first start method is
    in the method table, its call is the first thing logged, whatever else
    the flow holds. *)
Theorem run_checks_start_methods_only self fuel m :
  (_start_methods (cls self) = [] →
     Flow.run fuel self m = Raise (ValueError "No start method defined") m)
  ∧ (_start_methods (cls self) ≠ [] →
     Flow.run fuel self m = Flow.start_loop fuel self (_start_methods (cls self)) m
     ∧ Flow.run fuel self m ≠ Raise (ValueError "No start method defined") m
     ∧ ∀ s starts, _start_methods (cls self) = s :: starts →
         is_Some (_methods self !! s) →
         ∃ evs, m_log (machine_of (Flow.run fuel self m))
                = m_log m ++ Invoke s None :: evs).
Proof.
  unfold Flow.run. split; [by intros ->|].
  destruct (_start_methods (cls self)) as [|s starts]; [done|]. intros _.
  split; [done|]. split.
  - destruct (_methods self !! s) as [f|] eqn:Hf.
    + destruct (start_loop_calls self fuel s starts m) as [evs Hevs]; [by eexists|].
      intros Heq. rewrite Heq in Hevs. simpl in Hevs.
      apply (f_equal length) in Hevs. rewrite length_app in Hevs. simpl in Hevs. lia.
    + simpl. unfold Flow.call_method. rewrite Hf. simpl. discriminate.
  - intros s' starts' [= <- <-]. apply start_loop_calls.
Qed.

Lemma run_checks_start_methods_only_witness :
  Flow.run 1 Scenario.no_entry_flow Scenario.m0
    = Raise (ValueError "No start method defined") Scenario.m0
  ∧ Flow.run 1 Scenario.two_entries_flow Scenario.m0
    ≠ Raise (ValueError "No start method defined") Scenario.m0
  ∧ ∃ evs, m_log (machine_of (Flow.run 1 Scenario.two_entries_flow Scenario.m0))
           = m_log Scenario.m0 ++ Invoke "a" None :: evs.
Proof.
  split; [|split].
  - apply (proj1 (run_checks_start_methods_only Scenario.no_entry_flow 1 Scenario.m0)).
    vm_compute. reflexivity.
  - apply (proj2 (run_checks_start_methods_only Scenario.two_entries_flow 1 Scenario.m0)).
    vm_compute. discriminate.
  - destruct (proj2 (run_checks_start_methods_only Scenario.two_entries_flow 1
                       Scenario.m0)) as (_ & _ & H).
    { vm_compute. discriminate. }
    apply (H "a" ["b"]); [vm_compute; reflexivity|vm_compute; eauto].
Defined.

Lemma filter_eq_not_elem_of (t : string) (ns : list string) :
  t ∉ ns → filter (λ n, n = t) ns = [].
Proof.
  induction ns as [|n ns IH]; [done|]. intros [Hn Hns]%not_elem_of_cons.
  rewrite filter_cons, decide_False by congruence. by apply IH.
Qed.

Lemma declaring_without L t (dct : namespace) :
  (∀ a, (L, a) ∈ dct → t ∉ trigger_names a) →
  declaring t (filter (λ kv, kv.1 ≠ L) dct) = declaring t dct.
Proof.
  induction dct as [|[k a] dct IH]; [done|]. intros HL.
  rewrite filter_cons, declaring_cons. simpl.
  rewrite <- IH by (intros a' Hin; apply HL; by right).
  destruct (decide (k ≠ L)) as [Hne|Heq]; [by rewrite declaring_cons|].
  apply dec_stable in Heq as ->.
  rewrite filter_eq_not_elem_of; [done|]. apply HL. by left.
Qed.

Lemma spec_entryPoints_without L (dct : namespace) :
  (∀ a, (L, a) ∈ dct → has_is_start_method a = false) →
  spec_entryPoints (filter (λ kv, kv.1 ≠ L) dct) = spec_entryPoints dct.
Proof.
  induction dct as [|[k a] dct IH]; [done|]. intros HL.
  rewrite filter_cons, spec_entryPoints_cons. simpl.
  rewrite <- IH by (intros a' Hin; apply HL; by right).
  destruct (decide (k ≠ L)) as [Hne|Heq]; [by rewrite spec_entryPoints_cons|].
  apply dec_stable in Heq as ->. rewrite (HL a); [done|by left].
Qed.

Lemma trigger_names_is_step a t : t ∈ trigger_names a → is_step a.
Proof.
  unfold trigger_names, is_step. destruct (trigger_methods_of a); [by right; eexists|].
  by intros ?%elem_of_nil.
Qed.

(** C6.  Let every binding of [L] in the class dict be a listener, not an
    entry point, whose trigger names are names of no declared step.  Then
    [FlowMeta.__new__] builds the class without error, no run calls [L],
    and a run is what it is for the class dict without [L]: it ends as that
    one ends, with the same log.  It returns, given a budget deep enough,
    when there is an entry point, the entry points return, the graph has no
    cycle and no step raises past [Exception]. *)
Theorem unresolved_trigger_is_inert bases dct L :
  Forall (λ kv, triggers_named kv.2) dct →
  (∀ a, (L, a) ∈ dct →
     has_is_start_method a = false
     ∧ ∀ t, t ∈ trigger_names a → ¬ declared_step dct t) →
  ∃ c c',
    FlowMeta.__new__ bases dct = inr c
    ∧ FlowMeta.__new__ bases (filter (λ kv, kv.1 ≠ L) dct) = inr c'
    ∧ ∀ self self',
        cls self = c → cls self' = c' →
        (∀ n, n ≠ L → _methods self !! n = _methods self' !! n) →
        (∀ fuel m,
           Flow.run fuel self m = Flow.run fuel self' m
           ∧ ∃ evs, m_log (machine_of (Flow.run fuel self m)) = m_log m ++ evs
                    ∧ ∀ arg, Invoke L arg ∉ evs)
        ∧ (∀ rank,
             _start_methods c ≠ [] → ranked self rank →
             raise_only_Exception self → entry_points_return self →
             ∃ fuel, ∀ m, ∃ m', Flow.run fuel self m = Ret tt m').
Proof.
  intros Hnamed HL.
  destruct (new_succeeds bases dct Hnamed) as [c Hc].
  destruct (new_succeeds bases (filter (λ kv, kv.1 ≠ L) dct)) as [c' Hc'].
  { apply Forall_forall. intros kv [_ Hin]%list_elem_of_filter.
    by apply (proj1 (Forall_forall _ _) Hnamed). }
  exists c, c'. split; [done|]. split; [done|].
  intros self self' Hself Hself' Hmethods.
  destruct (new_graph _ _ _ Hc) as (_ & _ & _ & Hstart & Hls).
  destruct (new_graph _ _ _ Hc') as (_ & _ & _ & Hstart' & Hls').
  destruct (graph_names_declared _ _ _ Hc) as [Hstart_in Hls_in].
  set (Q := λ n, declared_step dct n ∧ n ≠ L).
  assert (closed_under_listeners self Q) as Hclosed.
  { intros t ls l [Ht _] Hl Hin. rewrite Hself in Hl.
    destruct (Hls_in _ _ _ Hl Hin) as (a & Ha & Hta). split.
    - exists a. split; [done|]. by eapply trigger_names_is_step.
    - intros ->. by apply (proj2 (HL a Ha) t). }
  assert (Forall Q (_start_methods (cls self))) as Hstarts.
  { rewrite Hself. apply Forall_forall. intros s Hs.
    destruct (Hstart_in _ Hs) as (a & Ha & Hsa). split.
    - exists a. split; [done|by left].
    - intros ->. destruct (HL a Ha) as [Hfalse _]. congruence. }
  assert (agree_on Q self self') as Hagree.
  { intros n [Hn HnL]. split; [by apply Hmethods|].
    rewrite Hself, Hself', Hls, Hls', declaring_without; [done|].
    intros a Ha Hna. by apply (proj2 (HL a Ha) n). }
  split.
  - intros fuel m. split.
    + apply (run_agree self self' Q); [done..| |done].
      rewrite Hself, Hself', Hstart, Hstart'. symmetry.
      apply spec_entryPoints_without. intros a Ha. by apply HL.
    + destruct (run_log self Q Hclosed fuel m Hstarts) as (evs & Hlog & Hevs).
      exists evs. split; [done|]. intros arg Hin.
      apply (proj1 (Forall_forall _ _) Hevs) in Hin. by destruct Hin as [_ ?].
  - intros rank Hne Hrank Hexc Hret. eapply run_returns; try done.
    by rewrite Hself.
Qed.

Lemma unresolved_trigger_is_inert_witness :
  let self := Scenario.orphan_flow in
  is_Some (_methods self !! "orphan")
  ∧ (∃ evs, m_log (machine_of (Flow.run 3 self Scenario.m0)) = m_log Scenario.m0 ++ evs
            ∧ ∀ arg, Invoke "orphan" arg ∉ evs)
  ∧ ∃ fuel, ∀ m, ∃ m', Flow.run fuel self m = Ret tt m'.
Proof.
  intros self. split; [vm_compute; eauto|].
  destruct (unresolved_trigger_is_inert [] (class_namespace Scenario.orphan_body) "orphan")
    as (c & c' & Hc & Hc' & H).
  - repeat constructor; intros ts [= <-]; set_solver.
  - intros a Ha. change (class_namespace Scenario.orphan_body) with
      [("fetch", AFunction (start (def (Scenario.returns (VInt 10)))));
       ("orphan", AFunction (listen [TStr "ghost"] (def (Scenario.returns VNone))));
       ("double", AFunction (listen [TStr "fetch"] (def Scenario.doubles)))] in *.
    rewrite !elem_of_cons, elem_of_nil in Ha.
    destruct Ha as [[=]|[[= ->]|[[=]|[]]]].
    split; [reflexivity|]. intros t Ht (a' & Ha' & Hstep).
    apply list_elem_of_singleton in Ht as ->.
    rewrite !elem_of_cons, elem_of_nil in Ha'.
    destruct Ha' as [[=]|[[=]|[[=]|[]]]].
  - assert (FlowMeta.__new__ [] (class_namespace Scenario.orphan_body) = inr (cls self))
      as E by (vm_compute; reflexivity).
    rewrite E in Hc. injection Hc as <-.
    destruct (H self {| cls := c'; _methods := _methods self; _state := VNone |})
      as [Hrun Hret]; [done..|].
    split; [apply Hrun|].
    assert (_methods self =
            <["fetch" := Scenario.returns (VInt 10)]>
              (<["orphan" := Scenario.returns VNone]> {["double" := Scenario.doubles]}))
      as Hmethods by (vm_compute; reflexivity).
    assert (_listeners (cls self) =
            <["fetch" := ["double"]]> {["ghost" := ["orphan"]]})
      as Hlisteners by (vm_compute; reflexivity).
    apply (Hret (λ n, if decide (n = "double") then 0 else if decide (n = "orphan") then 0 else 1)).
    + vm_compute. discriminate.
    + intros t ls l. rewrite Hlisteners.
      intros [[<- <-]|[_ [<- <-]%lookup_singleton_Some]]%lookup_insert_Some
        Hl%list_elem_of_singleton; subst l; vm_compute; lia.
    + intros name f h arg h' e. rewrite Hmethods.
      intros [[_ <-]|[_ [[_ <-]|[_ [_ <-]%lookup_singleton_Some]]%lookup_insert_Some]]%lookup_insert_Some;
        [discriminate|discriminate|].
      unfold Scenario.doubles. destruct arg as [[]|]; by intros [= _ <-].
    + intros s Hs. change (_start_methods (cls self)) with ["fetch"] in Hs.
      apply list_elem_of_singleton in Hs as ->. rewrite Hmethods.
      eexists. split; [reflexivity|]. intros h. by eexists _, _.
Defined.

(** ** Further properties of the graph builder *)

Lemma add_listeners_error attr_name ts : ∀ listeners e,
  FlowMeta.add_listeners attr_name listeners ts = inl e →
  e = AttributeError "object has no attribute '__name__'" ∧ TCallable None ∈ ts.
Proof.
  induction ts as [|tr ts IH]; simpl; intros listeners e; [done|].
  unfold FlowMeta.add_listener.
  destruct tr as [s|[n|]]; simpl.
  - intros H. destruct (IH _ _ H) as [-> Hin]. split; [done|by right].
  - intros H. destruct (IH _ _ H) as [-> Hin]. split; [done|by right].
  - intros [= <-]. split; [done|by left].
Qed.

Lemma collect_error items : ∀ start_methods listeners e,
  FlowMeta.collect items start_methods listeners = inl e →
  e = AttributeError "object has no attribute '__name__'"
  ∧ ¬ Forall (λ kv, triggers_named kv.2) items.
Proof.
  induction items as [|[attr_name attr_value] items IH]; simpl;
    intros sm ls e; [done|].
  destruct (trigger_methods_of attr_value) as [ts|] eqn:Ets.
  - destruct (FlowMeta.add_listeners attr_name ls ts) as [e1|ls1] eqn:E1.
    + intros [= <-]. destruct (add_listeners_error _ _ _ _ E1) as [-> Hin].
      split; [done|]. intros [Hhd _]%Forall_cons. by apply (Hhd ts).
    + intros H. destruct (IH _ _ _ H) as [-> Hn]. split; [done|].
      intros [_ Htl]%Forall_cons. done.
  - intros H. destruct (IH _ _ _ H) as [-> Hn]. split; [done|].
    intros [_ Htl]%Forall_cons. done.
Qed.



(** X2.  In the table [FlowMeta.__new__] builds, the keys are exactly the
    names that some binding of the class dict lists as a trigger, no key is
    bound to an empty list, and every name in a list is a name of the class
    dict that lists the key as a trigger; the start methods are exactly the
    names bound to something tagged as a start method. *)
Theorem listeners_table_wellformed bases dct c :
  FlowMeta.__new__ bases dct = inr c →
  (∀ t, is_Some (_listeners c !! t) ↔ ∃ l a, (l, a) ∈ dct ∧ t ∈ trigger_names a)
  ∧ (∀ t, _listeners c !! t ≠ Some [])
  ∧ (∀ t ls l, _listeners c !! t = Some ls →
       (l ∈ ls ↔ ∃ a, (l, a) ∈ dct ∧ t ∈ trigger_names a))
  ∧ (∀ s, s ∈ _start_methods c ↔ ∃ a, (s, a) ∈ dct ∧ has_is_start_method a = true).
Proof.
  intros Hnew. destruct (new_graph _ _ _ Hnew) as (_ & _ & _ & Hstart & Hls).
  split; [|split; [|split]].
  - intros t. rewrite Hls. split.
    + intros [ls Hl]. destruct (declaring t dct) as [|l ls'] eqn:E; [done|].
      assert (l ∈ declaring t dct) as Hin by (rewrite E; left).
      apply elem_of_declaring in Hin as (a & Ha & Hta). by exists l, a.
    + intros (l & a & Ha & Hta).
      assert (l ∈ declaring t dct) as Hin by (apply elem_of_declaring; by exists a).
      destruct (declaring t dct); [by apply elem_of_nil in Hin|by eexists].
  - intros t. rewrite Hls. by destruct (declaring t dct).
  - intros t ls l. rewrite Hls. intros Hl. rewrite <- elem_of_declaring.
    destruct (declaring t dct); [done|]. by injection Hl as <-.
  - intros s. rewrite Hstart. apply elem_of_spec_entryPoints.
Qed.

Lemma listeners_table_wellformed_witness :
  let c := Scenario.class_of [] Scenario.order_body in
  is_Some (_listeners c !! "second")
  ∧ ¬ is_Some (_listeners c !! "both")
  ∧ _listeners c !! "first" ≠ Some [].
Proof.
  intros c.
  destruct (listeners_table_wellformed [] (class_namespace Scenario.order_body) c)
    as (Hkeys & Hne & _).
  { vm_compute. reflexivity. }
  split; [|split].
  - apply Hkeys. eexists "both", _. split; [right; right; left|]. vm_compute. left.
  - vm_compute. by intros [? ?].
  - apply Hne.
Defined.

Lemma same_roles_graph dct dct' :
  same_roles dct dct' →
  spec_entryPoints dct = spec_entryPoints dct'
  ∧ ∀ t, declaring t dct = declaring t dct'.
Proof.
  induction 1 as [|[k a] [k' a'] dct dct' (Hk & Hs & Ht) _ [IHs IHt]]; [done|].
  simpl in Hk, Hs, Ht. subst k'. split.
  - by rewrite !spec_entryPoints_cons, Hs, IHs.
  - intros t. by rewrite !declaring_cons, Ht, IHt.
Qed.

(** X3.  The graph depends on the triggers through their names only: two
    class dicts that bind the same names in the same order, tagged alike,
    with triggers of the same names, whether given as strings or as
    callables, get the same start methods and the same listeners. *)
Theorem graph_depends_on_names_only bases bases' dct dct' c c' :
  same_roles dct dct' →
  FlowMeta.__new__ bases dct = inr c →
  FlowMeta.__new__ bases' dct' = inr c' →
  _start_methods c = _start_methods c' ∧ _listeners c = _listeners c'.
Proof.
  intros Hsame Hc Hc'.
  destruct (new_graph _ _ _ Hc) as (_ & _ & _ & Hstart & Hls).
  destruct (new_graph _ _ _ Hc') as (_ & _ & _ & Hstart' & Hls').
  destruct (same_roles_graph _ _ Hsame) as [Hs Hd]. split.
  - by rewrite Hstart, Hstart', Hs.
  - apply map_eq. intros t. by rewrite Hls, Hls', Hd.
Qed.

Lemma graph_depends_on_names_only_witness :
  _start_methods (Scenario.class_of [] Scenario.chain_body)
  = _start_methods (Scenario.class_of [] Scenario2.chain_body')
  ∧ _listeners (Scenario.class_of [] Scenario.chain_body)
    = _listeners (Scenario.class_of [] Scenario2.chain_body').
Proof.
  apply (graph_depends_on_names_only [] []
           (class_namespace Scenario.chain_body) (class_namespace Scenario2.chain_body')).
  - vm_compute. repeat constructor.
  - vm_compute. reflexivity.
  - vm_compute. reflexivity.
Defined.

(** X4.  The decorators only set their own attribute: [start] and [listen]
    commute, a second [listen] replaces the triggers of the first, and a
    function decorated with both is, in the class that binds it, a start
    method and a listener under each of its trigger names. *)
Theorem decorators_compose f ts ts' :
  start (listen ts f) = listen ts (start f)
  ∧ listen ts (listen ts' f) = listen ts f
  ∧ body (start (listen ts f)) = body f
  ∧ ∀ bases dct c k,
      FlowMeta.__new__ bases dct = inr c →
      (k, AFunction (start (listen ts f))) ∈ dct →
      k ∈ _start_methods c
      ∧ ∀ t, t ∈ trigger_names (AFunction (listen ts f)) →
             k ∈ listeners_at (_listeners c) t.
Proof.
  split; [done|]. split; [done|]. split; [done|].
  intros bases dct c k Hnew Hin.
  destruct (new_graph _ _ _ Hnew) as (_ & _ & _ & Hstart & Hls). split.
  - rewrite Hstart. apply elem_of_spec_entryPoints. by eexists.
  - intros t Ht. unfold listeners_at. rewrite Hls.
    assert (k ∈ declaring t dct) as Hk by (apply elem_of_declaring; by eexists).
    by destruct (declaring t dct).
Qed.

Lemma decorators_compose_witness :
  let c := Scenario.class_of [] Scenario2.cycle_body in
  "again" ∈ _start_methods c ∧ "again" ∈ listeners_at (_listeners c) "again".
Proof.
  intros c.
  destruct (decorators_compose (def (Scenario.returns VNone)) [TStr "again"] [])
    as (_ & _ & _ & H).
  destruct (H [] (class_namespace Scenario2.cycle_body) c "again") as [Hs Hl].
  - vm_compute. reflexivity.
  - vm_compute. left.
  - split; [done|]. apply Hl. vm_compute. left.
Defined.

(** ** Further properties of the construction of an instance *)

Lemma init_instance c h h' self :
  Flow.__init__ c h = (h', inr self) →
  cls self = c ∧ _methods self = Flow.collect_methods c
  ∧ Flow._create_initial_state c h = (h', inr (_state self)).
Proof.
  unfold Flow.__init__.
  destruct (Flow._create_initial_state c h) as [h1 [e|state]]; [done|].
  by intros [= <- <-].
Qed.



(** X6.  Every instance of a class with no [initial_state] gets a dict of
    its own, and every instance of a class whose [initial_state] is a class
    gets an instance of its own; the instances of a class whose
    [initial_state] is an object that exists already all have that one
    object as their state, and building them allocates nothing. *)
Theorem instances_share_a_supplied_state c h :
  (Flow.initial_state c = VNone →
     ∃ h1 s1 h2 s2,
       Flow.__init__ c h = (h1, inr s1) ∧ Flow.__init__ c h1 = (h2, inr s2)
       ∧ _state s1 = VRef (length h) ∧ _state s2 = VRef (S (length h))
       ∧ h2 !! length h = Some empty_dict ∧ h2 !! S (length h) = Some empty_dict)
  ∧ (∀ name fields, Flow.initial_state c = VType name (inr fields) →
       ∃ h1 s1 h2 s2,
         Flow.__init__ c h = (h1, inr s1) ∧ Flow.__init__ c h1 = (h2, inr s2)
         ∧ _state s1 = VRef (length h) ∧ _state s2 = VRef (S (length h)))
  ∧ (∀ l, Flow.initial_state c = VRef l →
       ∃ s1 s2,
         Flow.__init__ c h = (h, inr s1) ∧ Flow.__init__ c h = (h, inr s2)
         ∧ _state s1 = VRef l ∧ _state s2 = VRef l).
Proof.
  unfold Flow.__init__, Flow._create_initial_state. split; [|split].
  - intros ->. simpl. eexists _, _, _, _. split; [done|]. split; [done|].
    split; [done|]. simpl. rewrite length_app. simpl.
    split; [f_equal; f_equal; lia|]. split.
    + rewrite lookup_app_l by (rewrite length_app; simpl; lia).
      rewrite lookup_app_r by lia. by rewrite Nat.sub_diag.
    + rewrite lookup_app_r by (rewrite length_app; simpl; lia).
      rewrite length_app. simpl. by replace (S (length h) - (length h + 1)) with 0 by lia.
  - intros name fields ->. simpl. eexists _, _, _, _. split; [done|]. split; [done|].
    split; [done|]. simpl. rewrite length_app. simpl. f_equal. lia.
  - intros l ->. by eexists _, _.
Qed.

Lemma instances_share_a_supplied_state_witness :
  (∃ h1 s1 h2 s2,
     Flow.__init__ (Scenario.class_of [] Scenario.chain_body) [] = (h1, inr s1)
     ∧ Flow.__init__ (Scenario.class_of [] Scenario.chain_body) h1 = (h2, inr s2)
     ∧ _state s1 = VRef 0 ∧ _state s2 = VRef 1
     ∧ h2 !! 0 = Some empty_dict ∧ h2 !! 1 = Some empty_dict)
  ∧ ∃ s1 s2,
      Flow.__init__ (Scenario.class_of [] Scenario.shared_state_body) [empty_dict]
      = ([empty_dict], inr s1)
      ∧ Flow.__init__ (Scenario.class_of [] Scenario.shared_state_body) [empty_dict]
        = ([empty_dict], inr s2)
      ∧ _state s1 = VRef 0 ∧ _state s2 = VRef 0.
Proof.
  split.
  - apply (proj1 (instances_share_a_supplied_state
                    (Scenario.class_of [] Scenario.chain_body) [])).
    vm_compute. reflexivity.
  - apply (proj2 (proj2 (instances_share_a_supplied_state
                           (Scenario.class_of [] Scenario.shared_state_body)
                           [empty_dict])) 0).
    vm_compute. reflexivity.
Defined.



(** ** Further properties of a run *)

Lemma start_loop_app fuel self starts1 starts2 m :
  Flow.start_loop fuel self (starts1 ++ starts2) m =
  bind (Flow.start_loop fuel self starts1 m)
       (λ _ m1, Flow.start_loop fuel self starts2 m1).
Proof.
  revert m. induction starts1 as [|s starts1 IH]; simpl; intros m; [done|].
  destruct (Flow.call_method self s None m) as [v m1|e m1|m1]; simpl; [|done..].
  destruct (Flow._execute_listeners fuel self s v m1) as [[] m2|e m2|m2]; simpl;
    [|done..].
  apply IH.
Qed.

(** X8.  [run] stops at the first start method whose call raises: the
    error leaves [run], the machine is as that call left it, with the call
    logged if the method was in the table, and the start methods after it
    are not reached. *)
Theorem run_stops_at_the_first_failing_start_method
    self fuel pre s post m m1 e m2 :
  _start_methods (cls self) = pre ++ s :: post →
  Flow.start_loop fuel self pre m = Ret tt m1 →
  Flow.call_method self s None m1 = Raise e m2 →
  Flow.run fuel self m = Raise e m2
  ∧ m_log m2 = m_log m1 ++ match _methods self !! s with
                            | Some _ => [Invoke s None]
                            | None => []
                            end.
Proof.
  intros Hstarts Hpre Hcall. split.
  - unfold Flow.run. rewrite Hstarts.
    destruct (pre ++ s :: post) eqn:E; [by destruct pre|]. rewrite <- E.
    rewrite start_loop_app, Hpre. simpl. by rewrite Hcall.
  - destruct (call_method_cases self s None m1) as [[Hnone Hc]|(f & h' & r & Hf & _ & Hc)];
      rewrite Hc in Hcall.
    + injection Hcall as _ <-. by rewrite Hnone, app_nil_r.
    + rewrite Hf. destruct r; [|done]. by injection Hcall as _ <-.
Qed.

Lemma run_stops_at_the_first_failing_start_method_witness :
  Flow.run 1 Scenario.failing_entry_flow Scenario.m0
  = Raise Scenario.boom {| m_heap := [empty_dict]; m_log := [Invoke "a" None] |}
  ∧ [Invoke "a" None]
    = [] ++ match _methods Scenario.failing_entry_flow !! "a" with
            | Some _ => [Invoke "a" None]
            | None => []
            end.
Proof.
  apply (run_stops_at_the_first_failing_start_method
           Scenario.failing_entry_flow 1 [] "a" ["b"] Scenario.m0 Scenario.m0).
  - vm_compute. reflexivity.
  - reflexivity.
  - vm_compute. reflexivity.
Defined.

(** X9.  A start method whose name begins with two underscores is left
    out of the method table by [__init__], so [run] raises [KeyError] when
    it reaches it, without calling it, and stops there. *)
Theorem start_method_with_dunder_name_raises_KeyError
    c h h' self fuel pre s post m m1 :
  Flow.__init__ c h = (h', inr self) →
  _start_methods c = pre ++ s :: post →
  String.prefix "__" s = true →
  Flow.start_loop fuel self pre m = Ret tt m1 →
  Flow.run fuel self m = Raise (KeyError s) m1.
Proof.
  intros Hinit Hstarts Hs Hpre.
  destruct (init_instance _ _ _ _ Hinit) as (Hcls & Hmethods & _).
  unfold Flow.run. rewrite Hcls, Hstarts.
  destruct (pre ++ s :: post) eqn:E; [by destruct pre|]. rewrite <- E.
  rewrite start_loop_app, Hpre. simpl.
  unfold Flow.call_method. by rewrite Hmethods, collect_methods_lookup, Hs.
Qed.

Lemma start_method_with_dunder_name_raises_KeyError_witness :
  Flow.run 2 Scenario2.dunder_flow Scenario.m0
  = Raise (KeyError "__call__")
      {| m_heap := [empty_dict];
         m_log := [Invoke "begin" None; Print "Error in method __str__: '__str__'"] |}.
Proof.
  apply (start_method_with_dunder_name_raises_KeyError
           (Scenario.class_of [] Scenario2.dunder_body) [] [empty_dict]
           Scenario2.dunder_flow 2 ["begin"] "__call__" [] Scenario.m0).
  - vm_compute. reflexivity.
  - vm_compute. reflexivity.
  - vm_compute. reflexivity.
  - vm_compute. reflexivity.
Defined.

(** X10.  When the call of a listener raises an [Exception], be it the
    method's own or the [KeyError] of a name missing from the method table,
    the loop over the listeners of the trigger prints the error line of that
    listener and returns: the outcome is the same whatever listeners are
    registered after it, and none of them is called. *)
Theorem loop_returns_at_the_first_failing_listener
    self recur result pre l post m m1 e m2 :
  Flow.listener_loop self recur result pre m = Ret Normal m1 →
  Flow.call_method self l (Some result) m1 = Raise e m2 →
  is_Exception e = true →
  Flow.listener_loop self recur result (pre ++ l :: post) m
  = Ret Returned (emit (Print (Flow.error_line l e)) m2)
  ∧ (_methods self !! l = None → e = KeyError l ∧ m2 = m1).
Proof.
  intros Hpre Hcall He. split.
  - rewrite listener_loop_app, Hpre. simpl.
    unfold Flow.listener_round. rewrite Hcall. simpl. by rewrite He.
  - intros Hnone. unfold Flow.call_method in Hcall. rewrite Hnone in Hcall.
    by injection Hcall as <- <-.
Qed.

Lemma loop_returns_at_the_first_failing_listener_witness :
  let self := Scenario.siblings_flow in
  let m1 := {| m_heap := [empty_dict]; m_log := [Invoke "x" None] |} in
  Flow.listener_loop self (Flow._execute_listeners 1 self) (VInt 1) ([] ++ "y" :: ["z"]) m1
  = Ret Returned
      (emit (Print (Flow.error_line "y" Scenario.boom))
         {| m_heap := [empty_dict];
            m_log := [Invoke "x" None; Invoke "y" (Some (VInt 1))] |}).
Proof.
  intros self m1.
  apply (loop_returns_at_the_first_failing_listener self (Flow._execute_listeners 1 self)
           (VInt 1) [] "y" ["z"] m1 m1 Scenario.boom).
  - reflexivity.
  - vm_compute. reflexivity.
  - reflexivity.
Defined.

(** X11.  A listener whose name begins with two underscores is left out
    of the method table by [__init__]: when its trigger fires it is not
    called, the loop prints the [KeyError] as the error of that listener
    and returns. *)
Theorem listener_with_dunder_name_is_never_called
    c h h' self recur result pre l post m m1 :
  Flow.__init__ c h = (h', inr self) →
  String.prefix "__" l = true →
  Flow.listener_loop self recur result pre m = Ret Normal m1 →
  Flow.listener_loop self recur result (pre ++ l :: post) m
  = Ret Returned (emit (Print (Flow.error_line l (KeyError l))) m1).
Proof.
  intros Hinit Hl Hpre.
  destruct (init_instance _ _ _ _ Hinit) as (_ & Hmethods & _).
  rewrite listener_loop_app, Hpre. simpl.
  unfold Flow.listener_round, Flow.call_method.
  by rewrite Hmethods, collect_methods_lookup, Hl.
Qed.

Lemma listener_with_dunder_name_is_never_called_witness :
  let self := Scenario2.dunder_flow in
  let m1 := {| m_heap := [empty_dict]; m_log := [Invoke "begin" None] |} in
  Flow.listener_loop self (Flow._execute_listeners 1 self) (VInt 1)
    ([] ++ "__str__" :: ["after"]) m1
  = Ret Returned (emit (Print "Error in method __str__: '__str__'") m1).
Proof.
  intros self m1.
  apply (listener_with_dunder_name_is_never_called
           (Scenario.class_of [] Scenario2.dunder_body) [] [empty_dict] self
           (Flow._execute_listeners 1 self) (VInt 1) [] "__str__" ["after"] m1 m1).
  - vm_compute. reflexivity.
  - vm_compute. reflexivity.
  - reflexivity.
Defined.

(** X12.  What fails below a listener stays below it: on a graph without
    cycle, where no step raises past [Exception], a listener whose own call
    returns never ends the loop over the listeners of its trigger; the loop
    goes on with the listeners registered after it, from where the
    propagation of its result ends. *)
Theorem failure_below_a_listener_is_contained
    self rank fuel result l post m v m1 :
  ranked self rank →
  raise_only_Exception self →
  rank l < fuel →
  Flow.call_method self l (Some result) m = Ret v m1 →
  ∃ m2,
    Flow._execute_listeners fuel self l v m1 = Ret tt m2
    ∧ Flow.listener_loop self (Flow._execute_listeners fuel self) result (l :: post) m
      = Flow.listener_loop self (Flow._execute_listeners fuel self) result post m2.
Proof.
  intros Hrank Hexc Hlt Hcall.
  destruct (execute_listeners_returns self rank Hrank Hexc fuel l v m1 Hlt) as [m2 Hm2].
  exists m2. split; [done|]. simpl.
  unfold Flow.listener_round. rewrite Hcall. simpl. by rewrite Hm2.
Qed.

Lemma failure_below_a_listener_is_contained_witness :
  let self := Scenario2.deep_failure_flow in
  let m := {| m_heap := [empty_dict]; m_log := [Invoke "root" None] |} in
  ∃ m2,
    Flow._execute_listeners 2 self "left" (VInt 2)
      {| m_heap := [empty_dict];
         m_log := [Invoke "root" None; Invoke "left" (Some (VInt 1))] |} = Ret tt m2
    ∧ Flow.listener_loop self (Flow._execute_listeners 2 self) (VInt 1)
        ("left" :: ["right"]) m
      = Flow.listener_loop self (Flow._execute_listeners 2 self) (VInt 1) ["right"] m2.
Proof.
  intros self m.
  assert (_methods self =
          <["root" := Scenario.returns (VInt 1)]>
            (<["left" := Scenario.returns (VInt 2)]>
               (<["leaf" := Scenario.raises Scenario.boom]>
                  {["right" := Scenario.returns (VInt 3)]})))
    as Hmethods by (vm_compute; reflexivity).
  assert (_listeners (cls self) =
          <["root" := ["left"; "right"]]> {["left" := ["leaf"]]})
    as Hlisteners by (vm_compute; reflexivity).
  apply (failure_below_a_listener_is_contained self
           (λ n, if decide (n = "root") then 2 else if decide (n = "left") then 1 else 0)
           2 (VInt 1) "left" ["right"] m (VInt 2)).
  - intros t ls l. rewrite Hlisteners.
    intros [[<- <-]|[_ [<- <-]%lookup_singleton_Some]]%lookup_insert_Some Hl.
    + apply elem_of_cons in Hl as [->|Hl]; [|apply list_elem_of_singleton in Hl as ->];
        vm_compute; lia.
    + apply list_elem_of_singleton in Hl as ->. vm_compute. lia.
  - intros name f h arg h' e. rewrite Hmethods.
    intros [[_ <-]|[_ [[_ <-]|[_ [[_ <-]|[_ [_ <-]%lookup_singleton_Some]
      ]%lookup_insert_Some]]%lookup_insert_Some]]%lookup_insert_Some;
      try discriminate.
    by intros [= _ <-].
  - vm_compute. lia.
  - vm_compute. reflexivity.
Defined.

(** X13.  When the loop over the listeners of a trigger runs to its end,
    every listener of the list was called once per place it has in the
    list, in the order of the list, each with the result of the trigger,
    and the log is, listener by listener, the call of the listener followed
    by all that the propagation of its own result logs: the graph is walked
    depth first. *)
Theorem loop_calls_each_listener_with_the_result self fuel result ls : ∀ m m',
  Flow.listener_loop self (Flow._execute_listeners fuel self) result ls m
  = Ret Normal m' →
  ∃ segs, Forall2 (listener_segment fuel self result) ls segs
          ∧ m_log m' = m_log m ++ concat segs.
Proof.
  induction ls as [|l ls IH]; simpl; intros m m' H.
  - injection H as <-. exists []. split; [constructor|by rewrite app_nil_r].
  - unfold Flow.listener_round in H.
    destruct (Flow.call_method self l (Some result) m) as [v m1|e m1|m1] eqn:Ecall;
      simpl in H.
    + destruct (Flow._execute_listeners fuel self l v m1) as [[] m2|e m2|m2] eqn:Eexec;
        simpl in H; [|by destruct (is_Exception e)|done].
      destruct (IH _ _ H) as (segs & Hsegs & Hlog).
      destruct (extends_with_log _ _ _ (execute_listeners_extends self fuel l v m1))
        as [evs Hevs].
      rewrite Eexec in Hevs. simpl in Hevs.
      exists ((Invoke l (Some result) :: evs) :: segs). split.
      * constructor; [|done]. by exists m, v, m1, m2, evs.
      * rewrite Hlog, Hevs, (call_method_Ret_log _ _ _ _ _ _ Ecall). simpl.
        by rewrite <- !app_assoc.
    + by destruct (is_Exception e).
    + done.
Qed.

Lemma loop_calls_each_listener_with_the_result_witness :
  let self := Scenario2.deep_failure_flow in
  ∃ segs, Forall2 (listener_segment 2 self (VInt 1)) ["left"; "right"] segs
          ∧ [Invoke "root" None; Invoke "left" (Some (VInt 1));
             Invoke "leaf" (Some (VInt 2)); Print "Error in method leaf: boom";
             Invoke "right" (Some (VInt 1))]
            = [Invoke "root" None] ++ concat segs.
Proof.
  intros self.
  apply (loop_calls_each_listener_with_the_result self 2 (VInt 1) ["left"; "right"]
           {| m_heap := [empty_dict]; m_log := [Invoke "root" None] |}
           {| m_heap := [empty_dict];
              m_log := [Invoke "root" None; Invoke "left" (Some (VInt 1));
                        Invoke "leaf" (Some (VInt 2)); Print "Error in method leaf: boom";
                        Invoke "right" (Some (VInt 1))] |}).
  vm_compute. reflexivity.
Defined.

Section Heap.

Variables (self : flow) (I : heap → Prop).
Hypothesis Hkeep : steps_keep I self.

Lemma call_method_keeps name arg m :
  I (m_heap m) → I (m_heap (machine_of (Flow.call_method self name arg m))).
Proof.
  intros Hm.
  destruct (call_method_cases self name arg m) as [[_ ->]|(f & h' & r & Hf & Hr & ->)];
    [done|].
  assert (I h') by (by eapply Hkeep). by destruct r.
Qed.

Lemma listener_round_keeps recur result listener m :
  (∀ v m1, I (m_heap m1) → I (m_heap (machine_of (recur listener v m1)))) →
  I (m_heap m) →
  I (m_heap (machine_of (Flow.listener_round self recur result listener m))).
Proof.
  intros Hrec Hm. unfold Flow.listener_round.
  pose proof (call_method_keeps listener (Some result) m Hm) as Hcall.
  destruct (Flow.call_method self listener (Some result) m) as [v m1|e m1|m1];
    simpl in *.
  - specialize (Hrec v m1 Hcall).
    destruct (recur listener v m1) as [[] m2|e m2|m2]; simpl in *; [done| |done].
    by destruct (is_Exception e).
  - by destruct (is_Exception e).
  - done.
Qed.

Lemma listener_loop_keeps recur result ls : ∀ m,
  (∀ l v m1, I (m_heap m1) → I (m_heap (machine_of (recur l v m1)))) →
  I (m_heap m) →
  I (m_heap (machine_of (Flow.listener_loop self recur result ls m))).
Proof.
  induction ls as [|l ls IH]; simpl; intros m Hrec Hm; [done|].
  pose proof (listener_round_keeps recur result l m (Hrec l) Hm) as Hround.
  destruct (Flow.listener_round self recur result l m) as [[] m1|e m1|m1];
    simpl in *; try done.
  by apply IH.
Qed.

Lemma execute_listeners_keeps fuel : ∀ t result m,
  I (m_heap m) →
  I (m_heap (machine_of (Flow._execute_listeners fuel self t result m))).
Proof.
  induction fuel as [|fuel IH]; simpl; intros t result m Hm; [done|].
  destruct (_listeners (cls self) !! t) as [ls|]; [|done].
  rewrite machine_of_bind_Ret. by apply listener_loop_keeps.
Qed.

Lemma start_loop_keeps fuel starts : ∀ m,
  I (m_heap m) → I (m_heap (machine_of (Flow.start_loop fuel self starts m))).
Proof.
  induction starts as [|s starts IH]; simpl; intros m Hm; [done|].
  pose proof (call_method_keeps s None m Hm) as Hcall.
  destruct (Flow.call_method self s None m) as [v m1|e m1|m1]; simpl in *; try done.
  pose proof (execute_listeners_keeps fuel s v m1 Hcall) as Hexec.
  destruct (Flow._execute_listeners fuel self s v m1) as [[] m2|e m2|m2];
    simpl in *; try done.
  by apply IH.
Qed.

End Heap.

(** X14.  The engine has no effect of its own on the heap: a property of
    the heap that every method of the table keeps, whether the method
    returns or raises, holds after [run] if it held before, however the run
    ends.  In particular the state object is only changed by the steps. *)
Theorem run_keeps_what_every_step_keeps self (I : heap → Prop) fuel m :
  steps_keep I self →
  I (m_heap m) →
  I (m_heap (machine_of (Flow.run fuel self m))).
Proof.
  intros Hkeep Hm. unfold Flow.run.
  destruct (_start_methods (cls self)); [done|]. by apply start_loop_keeps.
Qed.

Lemma run_keeps_what_every_step_keeps_witness :
  let self := Scenario2.counting_flow in
  length (m_heap (machine_of (Flow.run 2 self Scenario.m0))) = 1
  ∧ m_heap (machine_of (Flow.run 2 self Scenario.m0))
    = [{| obj_type := "dict"; obj_fields := [("n", VInt 2)] |}].
Proof.
  intros self. split; [|vm_compute; reflexivity].
  apply (run_keeps_what_every_step_keeps self (λ h, length h = 1) 2 Scenario.m0);
    [|reflexivity].
  assert (_methods self = <["first" := Scenario2.bump]> {["second" := Scenario2.bump]})
    as Hmethods by (vm_compute; reflexivity).
  intros name f h arg h' r. rewrite Hmethods.
  intros [[_ <-]|[_ [_ <-]%lookup_singleton_Some]]%lookup_insert_Some;
    unfold Scenario2.bump; destruct (h !! 0); intros [= <- _];
    by rewrite ?length_insert.
Defined.

(** X15.  A method of the class body that neither decorator has touched is
    no part of the graph: it is no start method, no listener under any
    trigger, and no run of an instance of the class calls it. *)
Theorem undecorated_method_is_never_called bases dct c name :
  FlowMeta.__new__ bases dct = inr c →
  (∀ a, (name, a) ∈ dct → undecorated a) →
  (name ∉ _start_methods c)
  ∧ (∀ t ls, _listeners c !! t = Some ls → name ∉ ls)
  ∧ ∀ self fuel m, cls self = c →
      ∃ evs, m_log (machine_of (Flow.run fuel self m)) = m_log m ++ evs
             ∧ ∀ arg, Invoke name arg ∉ evs.
Proof.
  intros Hnew Hname.
  destruct (graph_names_declared _ _ _ Hnew) as [Hstart Hls].
  assert (¬ declared_step dct name) as Hnot.
  { intros (a & Ha & [Hs|[ts Hts]]); destruct (Hname a Ha) as [Hs' Hts']; congruence. }
  split; [|split].
  - intros Hin. destruct (Hstart _ Hin) as (a & Ha & Hs). apply Hnot.
    exists a. split; [done|by left].
  - intros t ls Hl Hin. destruct (Hls _ _ _ Hl Hin) as (a & Ha & Hta). apply Hnot.
    exists a. split; [done|by eapply trigger_names_is_step].
  - intros self fuel m <-.
    destruct (run_log self (declared_step dct)) with (fuel := fuel) (m := m)
      as (evs & Hlog & Hevs).
    + intros t ls l _ Hl Hin. destruct (Hls _ _ _ Hl Hin) as (a & Ha & Hta).
      exists a. split; [done|by eapply trigger_names_is_step].
    + apply Forall_forall. intros s Hs. destruct (Hstart _ Hs) as (a & Ha & Hsa).
      exists a. split; [done|by left].
    + exists evs. split; [done|]. intros arg Hin.
      apply (proj1 (Forall_forall _ _) Hevs) in Hin. done.
Qed.

Lemma undecorated_method_is_never_called_witness :
  let self := Scenario2.helper_flow in
  is_Some (_methods self !! "helper")
  ∧ ∃ evs, m_log (machine_of (Flow.run 2 self Scenario.m0)) = m_log Scenario.m0 ++ evs
           ∧ ∀ arg, Invoke "helper" arg ∉ evs.
Proof.
  intros self. split; [vm_compute; eauto|].
  destruct (undecorated_method_is_never_called []
              (class_namespace Scenario2.helper_body) (cls self) "helper")
    as (_ & _ & Hrun).
  - vm_compute. reflexivity.
  - intros a Ha. change (class_namespace Scenario2.helper_body) with
      [("fetch", AFunction (start (def (Scenario.returns (VInt 10)))));
       ("helper", AFunction (def (Scenario.returns VNone)));
       ("double", AFunction (listen [TStr "fetch"] (def Scenario.doubles)))] in Ha.
    rewrite !elem_of_cons, elem_of_nil in Ha.
    destruct Ha as [[=]|[[= ->]|[[=]|[]]]]. by split.
  - by apply Hrun.
Defined.



(** X17.  A class whose own body tags no start method has no start method,
    whatever its bases declare: [run] on any of its instances raises the
    [ValueError] at once and calls nothing. *)
Theorem class_without_own_start_method_cannot_run bases dct c :
  FlowMeta.__new__ bases dct = inr c →
  (∀ k a, (k, a) ∈ dct → has_is_start_method a = false) →
  _start_methods c = []
  ∧ ∀ self fuel m, cls self = c →
      Flow.run fuel self m = Raise (ValueError "No start method defined") m.
Proof.
  intros Hnew Hnone.
  destruct (graph_names_declared _ _ _ Hnew) as [Hstart _].
  assert (_start_methods c = []) as Hempty.
  { destruct (_start_methods c) as [|s starts] eqn:E; [done|].
    destruct (Hstart s) as (a & Ha & Hs); [left|].
    rewrite (Hnone s a Ha) in Hs. done. }
  split; [done|]. intros self fuel m <-. unfold Flow.run. by rewrite Hempty.
Qed.

Lemma class_without_own_start_method_cannot_run_witness :
  let self := Scenario.instantiate [class_namespace Scenario.parent_body]
                Scenario.no_entry_body in
  is_Some (_methods self !! "load")
  ∧ Flow.run 3 self Scenario.m0
    = Raise (ValueError "No start method defined") Scenario.m0.
Proof.
  intros self. split; [vm_compute; eauto|].
  destruct (class_without_own_start_method_cannot_run
              [class_namespace Scenario.parent_body]
              (class_namespace Scenario.no_entry_body) (cls self)) as [_ Hrun].
  - vm_compute. reflexivity.
  - intros k a Ha. change (class_namespace Scenario.no_entry_body) with
      [("double", AFunction (listen [TStr "fetch"] (def Scenario.doubles)))] in Ha.
    apply list_elem_of_singleton in Ha. by injection Ha as -> ->.
  - by apply Hrun.
Defined.

Section Quiet.

Variable self : flow.
Hypothesis Hreturns : every_step_returns self.
Hypothesis Hregistered : listeners_registered self.

Lemma call_method_registered name arg m :
  is_Some (_methods self !! name) →
  ∃ v h', Flow.call_method self name arg m
          = Ret v {| m_heap := h'; m_log := m_log m ++ [Invoke name arg] |}.
Proof.
  intros [f Hf]. unfold Flow.call_method. rewrite Hf.
  destruct (Hreturns name f (m_heap m) arg Hf) as (h' & v & ->). by eexists _, _.
Qed.

Lemma listener_loop_quiet recur result ls : ∀ m,
  (∀ l, l ∈ ls → is_Some (_methods self !! l)) →
  (∀ l v m1, l ∈ ls →
     extends_with (λ ev, ¬ is_print ev) m1 (machine_of (recur l v m1))
     ∧ ∀ e m', recur l v m1 ≠ Raise e m') →
  extends_with (λ ev, ¬ is_print ev) m
    (machine_of (Flow.listener_loop self recur result ls m))
  ∧ (∀ e m', Flow.listener_loop self recur result ls m ≠ Raise e m')
  ∧ (∀ m', Flow.listener_loop self recur result ls m ≠ Ret Returned m').
Proof.
  induction ls as [|l ls IH]; simpl; intros m Hreg Hrec.
  - split; [apply extends_with_refl|done].
  - unfold Flow.listener_round.
    destruct (call_method_registered l (Some result) m) as (v & h' & ->);
      [apply Hreg; by left|]. simpl.
    destruct (Hrec l v {| m_heap := h'; m_log := m_log m ++ [Invoke l (Some result)] |})
      as [Hext Hraise]; [by left|].
    assert (extends_with (λ ev, ¬ is_print ev) m
              {| m_heap := h'; m_log := m_log m ++ [Invoke l (Some result)] |}) as Hcall.
    { exists [Invoke l (Some result)]. split; [done|]. repeat constructor. by intros []. }
    destruct (recur l v _) as [[] m2|e m2|m2] eqn:E; simpl in *.
    + destruct (IH m2) as (Hext' & Hraise' & Hret').
      * intros l' Hl'. apply Hreg. by right.
      * intros l' v' m1 Hl'. apply Hrec. by right.
      * split; [|done]. eapply extends_with_trans; [|done].
        by eapply extends_with_trans.
    + by destruct (Hraise e m2).
    + split; [by eapply extends_with_trans|done].
Qed.

Lemma execute_listeners_quiet fuel : ∀ t result m,
  extends_with (λ ev, ¬ is_print ev) m
    (machine_of (Flow._execute_listeners fuel self t result m))
  ∧ ∀ e m', Flow._execute_listeners fuel self t result m ≠ Raise e m'.
Proof.
  induction fuel as [|fuel IH]; simpl; intros t result m.
  - split; [apply extends_with_refl|done].
  - destruct (_listeners (cls self) !! t) as [ls|] eqn:Els;
      [|split; [apply extends_with_refl|done]].
    destruct (listener_loop_quiet (Flow._execute_listeners fuel self) result ls m)
      as (Hext & Hraise & _).
    + intros l Hl. by eapply Hregistered.
    + intros l v m1 _. apply IH.
    + rewrite machine_of_bind_Ret. split; [done|].
      destruct (Flow.listener_loop self (Flow._execute_listeners fuel self) result ls m)
        as [c m1|e m1|m1]; simpl; try done. by destruct (Hraise e m1).
Qed.

Lemma start_loop_quiet fuel starts : ∀ m,
  (∀ s, s ∈ starts → is_Some (_methods self !! s)) →
  extends_with (λ ev, ¬ is_print ev) m
    (machine_of (Flow.start_loop fuel self starts m))
  ∧ ∀ e m', Flow.start_loop fuel self starts m ≠ Raise e m'.
Proof.
  induction starts as [|s starts IH]; simpl; intros m Hreg.
  - split; [apply extends_with_refl|done].
  - destruct (call_method_registered s None m) as (v & h' & ->); [apply Hreg; by left|].
    simpl.
    assert (extends_with (λ ev, ¬ is_print ev) m
              {| m_heap := h'; m_log := m_log m ++ [Invoke s None] |}) as Hcall.
    { exists [Invoke s None]. split; [done|]. repeat constructor. by intros []. }
    destruct (execute_listeners_quiet fuel s v
                {| m_heap := h'; m_log := m_log m ++ [Invoke s None] |})
      as [Hext Hraise].
    destruct (Flow._execute_listeners fuel self s v _) as [[] m2|e m2|m2]; simpl in *.
    + destruct (IH m2) as [Hext' Hraise']; [intros s' Hs'; apply Hreg; by right|].
      split; [|done]. eapply extends_with_trans; [|done].
      by eapply extends_with_trans.
    + by destruct (Hraise e m2).
    + split; [by eapply extends_with_trans|done].
Qed.

End Quiet.


